(** * parking-search: the scrape / merge / cache pipeline of [server.js]

    A shallow embedding of [validateCarpark], [scrapeWithRetry],
    [scrapeCarparks] and [formatDisplayInfo], and the properties of the
    ingestion pipeline proved about them.

    Conventions of the embedding.
    - A JavaScript string is a [string] holding its UTF-8 bytes.
    - A JavaScript number that is a coordinate is a [number]: NaN, an
      infinity, or a finite value, taken as the rational it denotes (every
      finite double is one, and [<=], [>=] and the test against zero are
      exact on doubles).  A number produced by [parseInt] is an integer and
      is a [Z] ([None] stands for NaN).
    - A document is what the cheerio selectors return on it: the list of
      elements of each class, each element with the text of its fields.
    - The Mongo collection is a list of stored documents; the logger a list
      of log records; the clock and the network are read from an explicit
      environment. *)

From Stdlib Require Import ZArith QArith Qround Lqa String Ascii List Lia Permutation.
From stdpp Require Import base strings gmap list pretty.

Open Scope string_scope.
Open Scope Z_scope.
Open Scope list_scope.

(** ** JavaScript values *)

Module JS.

(** Coordinates: the result of [parseFloat]. *)
Inductive number : Type :=
| NaN
| Infinity (negative : bool)
| Fin (q : Q).

Definition isNaN (n : number) : bool :=
  match n with NaN => true | _ => false end.

(** [a <= b] on numbers; every comparison with NaN is false. *)
Definition le (a b : number) : bool :=
  match a, b with
  | NaN, _ | _, NaN => false
  | Infinity true, _ => true
  | _, Infinity false => true
  | Infinity false, _ => false
  | _, Infinity true => false
  | Fin x, Fin y => Qle_bool x y
  end.

Definition ge (a b : number) : bool := le b a.

Definition of_Z (z : Z) : number := Fin (inject_Z z).

(** The values that [validateCarpark] can return. *)
Inductive value : Type :=
| VBool (b : bool)
| VNum (n : number)
| VStr (s : string).

(** ToBoolean. *)
Definition truthy (v : value) : bool :=
  match v with
  | VBool b => b
  | VNum NaN => false
  | VNum (Infinity _) => true
  | VNum (Fin q) => negb (Qeq_bool q 0)
  | VStr s => negb (String.eqb s "")
  end.

(** [a && b]: the left operand when it is falsy, else the right one. *)
Definition and (a : value) (b : value) : value :=
  if truthy a then b else a.

(** [a || b] on strings. *)
Definition or_str (a b : string) : string :=
  if truthy (VStr a) then a else b.

(** [n || 0] on the result of [parseInt]: NaN and zero both give 0. *)
Definition or_zero (n : option Z) : Z :=
  match n with Some z => z | None => 0 end.

(** Truthiness of a property that may be absent ([undefined]). *)
Definition truthy_flag (b : option bool) : bool :=
  match b with Some true => true | _ => false end.

(** [Array.prototype.join]. *)
Definition join (sep : string) (l : list string) : string :=
  String.concat sep l.

(** A number in a template literal: integers print in decimal.  The
    exponent form, which starts at 1e21, is not modelled. *)
Definition show (z : Z) : string := pretty z.

(** *** White space and [String.prototype.trim]

    The white space and line terminator characters of ECMAScript, as
    their UTF-8 encodings. *)
Definition bytes (l : list nat) : string :=
  string_of_list_ascii (List.map ascii_of_nat l).

Definition whiteSpace : list string :=
  List.map bytes
    [ [9]; [10]; [11]; [12]; [13]; [32]; [194; 160]; [225; 154; 128];
      [226; 128; 128]; [226; 128; 129]; [226; 128; 130]; [226; 128; 131];
      [226; 128; 132]; [226; 128; 133]; [226; 128; 134]; [226; 128; 135];
      [226; 128; 136]; [226; 128; 137]; [226; 128; 138]; [226; 128; 168];
      [226; 128; 169]; [226; 128; 175]; [226; 129; 159]; [227; 128; 128];
      [239; 187; 191] ]%nat.

Fixpoint dropPrefix (p s : string) : option string :=
  match p, s with
  | EmptyString, _ => Some s
  | String a p', String b s' =>
      if Ascii.eqb a b then dropPrefix p' s' else None
  | String _ _, EmptyString => None
  end.

(** Removes one leading token of [tokens], if there is one. *)
Fixpoint dropOne (tokens : list string) (s : string) : option string :=
  match tokens with
  | [] => None
  | t :: ts =>
      match dropPrefix t s with
      | Some s' => Some s'
      | None => dropOne ts s
      end
  end.

Fixpoint dropAll (fuel : nat) (tokens : list string) (s : string) : string :=
  match fuel with
  | O => s
  | S fuel' =>
      match dropOne tokens s with
      | Some s' => dropAll fuel' tokens s'
      | None => s
      end
  end.

Definition trimStart (s : string) : string :=
  dropAll (String.length s) whiteSpace s.

Definition trimEnd (s : string) : string :=
  String.rev
    (dropAll (String.length s) (List.map String.rev whiteSpace) (String.rev s)).

Definition trim (s : string) : string := trimEnd (trimStart s).

(** *** [parseInt] with no radix argument

    Leading white space is skipped, then a sign, then an optional [0x]
    that selects base 16; the longest run of digits is read and the rest
    ignored.  No digit at all gives NaN ([None]).  The result is the exact
    integer: the rounding to a double, which starts above 2^53, is not
    modelled. *)
Definition digit (radix : Z) (c : ascii) : option Z :=
  let n := Z.of_nat (nat_of_ascii c) in
  let d :=
    if (48 <=? n) && (n <=? 57) then Some (n - 48)
    else if (97 <=? n) && (n <=? 122) then Some (n - 87)
    else if (65 <=? n) && (n <=? 90) then Some (n - 55)
    else None in
  match d with
  | Some v => if v <? radix then Some v else None
  | None => None
  end.

Fixpoint digits (radix : Z) (s : string) (acc : option Z) : option Z :=
  match s with
  | EmptyString => acc
  | String c s' =>
      match digit radix c with
      | Some d => digits radix s' (Some (radix * or_zero acc + d))
      | None => acc
      end
  end.

Definition parseInt (s : string) : option Z :=
  let s0 := trimStart s in
  let '(sign, s1) :=
    match s0 with
    | String "-" r => (-1, r)
    | String "+" r => (1, r)
    | _ => (1, s0)
    end in
  let '(radix, s2) :=
    match s1 with
    | String "0" (String "x" r) | String "0" (String "X" r) => (16, r)
    | _ => (10, s1)
    end in
  match digits radix s2 None with
  | Some v => Some (sign * v)
  | None => None
  end.

End JS.

(** ** The data model *)

(** The [streetParking] sub-object of a car park. *)
Module StreetParking.
Record t : Type := mk { total : Z; available : Z; fee : string }.
End StreetParking.

(** A car park object.  The properties that one of the two object literals
    of [scrapeCarparks] leaves out are optional: [isStreetParking] is set on
    street zones only; [openingHours], [contactNumber], [facilities] and
    [lastUpdated] on garages only; [hasCharging] and [displayInfo] are added
    by the merge loop. *)
Record carpark : Type := mkCarpark {
  name : string;
  address : string;
  capacity : Z;
  latitude : JS.number;
  longitude : JS.number;
  nearbyBuildings : list string;
  chargingStations : Z;
  chargingProvider : string;
  chargingType : string;
  isStreetParking : option bool;
  streetParking : StreetParking.t;
  openingHours : option string;
  contactNumber : option string;
  facilities : option (list string);
  lastUpdated : option string;
  hasCharging : option bool;
  displayInfo : option string
}.

(** ** [validateCarpark] *)

Notation "a '&&&' b" := (JS.and a b) (at level 40, left associativity).

Definition validateCarpark (c : carpark) : JS.value :=
  JS.VStr (name c) &&&
  JS.VNum (latitude c) &&&
  JS.VNum (longitude c) &&&
  JS.VBool (negb (JS.isNaN (latitude c))) &&&
  JS.VBool (negb (JS.isNaN (longitude c))) &&&
  JS.VBool (JS.ge (latitude c) (JS.of_Z (-90))) &&&
  JS.VBool (JS.le (latitude c) (JS.of_Z 90)) &&&
  JS.VBool (JS.ge (longitude c) (JS.of_Z (-180))) &&&
  JS.VBool (JS.le (longitude c) (JS.of_Z 180)).

(** ** [formatDisplayInfo] *)

Definition formatDisplayInfo (c : carpark) : string :=
  let sp := streetParking c in
  let parking :=
    if JS.truthy_flag (isStreetParking c) then
      ("路邊泊車位: " +:+ JS.show (capacity c) +:+ "個")
      :: (if JS.truthy (JS.VStr (StreetParking.fee sp))
          then ["收費: " +:+ StreetParking.fee sp] else [])
    else
      ("停車場車位: " +:+ JS.show (capacity c) +:+ "個")
      :: (if 0 <? StreetParking.total sp then
            ("路邊泊車位: " +:+ JS.show (StreetParking.total sp) +:+ "個")
            :: (if JS.truthy (JS.VStr (StreetParking.fee sp))
                then ["路邊收費: " +:+ StreetParking.fee sp] else [])
          else []) in
  let charging :=
    if JS.truthy_flag (hasCharging c)
    then ["充電站: " +:+ JS.show (chargingStations c) +:+ "個"] else [] in
  let hours :=
    match openingHours c with
    | Some h => if JS.truthy (JS.VStr h) then ["營業時間: " +:+ h] else []
    | None => []
    end in
  JS.join " | " (parking ++ charging ++ hours).

(** ** Errors, the logger, the environment and the world *)

(** A thrown [Error]; [status] is [error.response.status] when the request
    got a response. *)
Record error : Type := mkError {
  errMessage : string;
  errStatus : option Z
}.

Inductive result (A : Type) : Type :=
| Ok (a : A)
| Throw (e : error).
Arguments Ok {A} a.
Arguments Throw {A} e.

Inductive level : Type := LError | LWarn | LInfo.

(** A winston record: level, message and the metadata object. *)
Inductive meta : Type :=
| MetaError (message : string)
| MetaData (data : carpark)
| MetaElement (message html : string)
| MetaCacheAge (cacheAge : Z).

Record logRecord : Type := mkLog {
  logLevel : level;
  logMessage : string;
  logMeta : meta
}.

(** *** Documents

    An element is the text that the selectors of one loop body read from
    it, or the error that reading it raises (with the markup of the element,
    which the garage loop logs). *)
Inductive extraction (F : Type) : Type :=
| Extracted (fields : F)
| Raises (e : error) (html : string).
Arguments Extracted {F} fields.
Arguments Raises {F} e html.

Record streetInfoFields : Type := mkStreetInfo {
  totalSpacesText : string;
  availableSpacesText : string;
  parkingFeeText : string
}.

(** A [.carpark-item] element. [dataLat] and [dataLng] are the values of
    [parseFloat] on the two attributes; [streetParkingInfo] is [None] when
    no [.street-parking-info] descendant exists; [isoNow] is the reading of
    [new Date().toISOString()] taken while the element is visited. *)
Record garageFields : Type := mkGarage {
  carparkNameText : string;
  carparkAddressText : string;
  carparkCapacityText : string;
  dataLat : JS.number;
  dataLng : JS.number;
  streetParkingInfo : option streetInfoFields;
  openingHoursText : string;
  contactText : string;
  facilitiesTexts : list string;
  isoNow : string
}.

(** A [.street-parking-zone] element. *)
Record zoneFields : Type := mkZone {
  zoneNameText : string;
  zoneAddressText : string;
  zoneTotalSpacesText : string;
  zoneLat : JS.number;
  zoneLng : JS.number;
  zoneParkingFeeText : string
}.

(** A [.charger-location] element. *)
Record chargerFields : Type := mkCharger {
  locationNameText : string;
  providerTexts : list string;
  chargerTypeTexts : list string;
  chargerCountText : string
}.

(** What [cheerio.load] gives for a page: the elements of each of the three
    classes that [scrapeCarparks] selects, in document order. *)
Record document : Type := mkDocument {
  carparkItems : list (extraction garageFields);
  streetParkingZones : list (extraction zoneFields);
  chargerLocations : list (extraction chargerFields)
}.

(** *** The environment: everything the code reads from outside *)

Inductive response : Type :=
| Responds (data : document)
| Rejects (e : error).

Record environment : Type := mkEnv {
  (** [axios.get(url)] on the n-th attempt (from 1) *)
  httpGet : string -> nat -> response;
  (** the i-th [Math.random()] drawn for the retry operation on a url *)
  random : string -> nat -> Q;
  (** [Date.now()] at the cache check, [new Date()] at the write,
      [Date.now()] in the fallback *)
  clockCheck : Z;
  clockCreate : Z;
  clockFallback : Z;
  (** [String.prototype.localeCompare] for locale zh-Hant *)
  localeCompare : string -> string -> Z;
  (** when both fetches reject: whether the second one rejected first *)
  secondRejectsFirst : bool
}.

(** A stored document of the [Carpark] model.  The schema has the two
    paths [data] and [lastUpdated]; a path outside the schema is not
    saved. *)
Record storedDoc : Type := mkDoc {
  data : list carpark;
  docLastUpdated : Z
}.

Record world : Type := mkWorld {
  collection : list storedDoc;
  logs : list logRecord;
  (** the requests sent: url and attempt number *)
  requests : list (string * nat);
  (** the back-off delays waited, in ms *)
  sleeps : list (string * Z)
}.

(** *** The monad of the pipeline: a thrown error leaves the world as the
    code before the throw made it. *)

Definition M (A : Type) : Type := world -> result A * world.

Definition ret {A} (a : A) : M A := fun w => (Ok a, w).

Definition throw {A} (e : error) : M A := fun w => (Throw e, w).

Definition bind {A B} (m : M A) (k : A -> M B) : M B :=
  fun w =>
    match m w with
    | (Ok a, w') => k a w'
    | (Throw e, w') => (Throw e, w')
    end.

Definition tryCatch {A} (body : M A) (handler : error -> M A) : M A :=
  fun w =>
    match body w with
    | (Ok a, w') => (Ok a, w')
    | (Throw e, w') => handler e w'
    end.

Notation "'let*' x ':=' m 'in' k" := (bind m (fun x => k))
  (at level 10, x name, m at level 100, k at level 200).
Notation "m ';;' k" := (bind m (fun _ => k))
  (at level 100, k at level 200, right associativity).

Definition pushLog (r : logRecord) (w : world) : world :=
  mkWorld (collection w) (logs w ++ [r]) (requests w) (sleeps w).

Definition pushRequest (url : string) (num : nat) (w : world) : world :=
  mkWorld (collection w) (logs w) (requests w ++ [(url, num)]) (sleeps w).

Definition pushSleep (url : string) (ms : Z) (w : world) : world :=
  mkWorld (collection w) (logs w) (requests w) (sleeps w ++ [(url, ms)]).

Definition logger (l : level) (msg : string) (md : meta) : M unit :=
  fun w => (Ok tt, pushLog (mkLog l msg md) w).

Definition request (env : environment) (url : string) (num : nat) : M response :=
  fun w => (Ok (httpGet env url num), pushRequest url num w).

Definition sleep (url : string) (ms : Z) : M unit :=
  fun w => (Ok tt, pushSleep url ms w).

(** [$(...).each(body)] and [forEach]: the body runs on the elements in
    order; an error thrown by it ends the loop. *)
Fixpoint each {E S} (body : E -> S -> M S) (els : list E) (s : S) : M S :=
  match els with
  | [] => ret s
  | e :: rest => let* s' := body e s in each body rest s'
  end.

(** ** [scrapeWithRetry]

    [retry] is the [async-retry] package, over the [retry] package: the
    delays are all drawn when the operation starts and sorted, an attempt
    that calls [bail] rejects at once, an attempt that throws is run again
    after the next delay as long as one is left, and when none is left the
    operation rejects with the error whose message was seen most often (the
    latest of them on a tie). *)

Record retryOptions : Type := mkOptions {
  retries : nat;
  minTimeout : Z;
  maxTimeout : Z;
  factor : Z;
  randomize : bool
}.

(** The options object of [scrapeWithRetry]; [factor] and [randomize] are
    the defaults of [async-retry]. *)
Definition scrapeOptions : retryOptions :=
  {| retries := 3; minTimeout := 2000; maxTimeout := 5000;
     factor := 2; randomize := true |}.

(** [Math.round]. *)
Definition round (x : Q) : Z := Qfloor (x + (1 # 2))%Q.

(** [createTimeout(attempt, opts)], given the reading of [Math.random()].
    The product is exact here; the library multiplies doubles before
    rounding, which can move the result by one millisecond. *)
Definition createTimeout (attempt : nat) (opts : retryOptions) (rnd : Q) : Z :=
  let r := if randomize opts then (rnd + 1)%Q else 1%Q in
  let timeout :=
    round (r * inject_Z (Z.max (minTimeout opts) 1)
             * inject_Z (factor opts ^ Z.of_nat attempt))%Q in
  Z.min timeout (maxTimeout opts).

Fixpoint insertAscending (x : Z) (l : list Z) : list Z :=
  match l with
  | [] => [x]
  | y :: l' => if x <=? y then x :: l else y :: insertAscending x l'
  end.

Definition sortAscending (l : list Z) : list Z :=
  fold_right insertAscending [] l.

(** [retry.timeouts(opts)]. *)
Definition timeouts (opts : retryOptions) (rnd : nat -> Q) : list Z :=
  sortAscending
    (List.map (fun i => createTimeout i opts (rnd i)) (seq 0 (retries opts))).

Definition countMessage (msg : string) (errors : list error) : nat :=
  length (List.filter (fun e => String.eqb (errMessage e) msg) errors).

(** [mainError()] over the errors collected so far, oldest first. *)
Fixpoint mainErrorFrom (seen : list error) (best : option error) (bestCount : nat)
    (errors : list error) : option error :=
  match errors with
  | [] => best
  | e :: rest =>
      let count := S (countMessage (errMessage e) seen) in
      if (bestCount <=? count)%nat
      then mainErrorFrom (seen ++ [e]) (Some e) count rest
      else mainErrorFrom (seen ++ [e]) best bestCount rest
  end.

Definition mainError (errors : list error) (last : error) : error :=
  match mainErrorFrom [] None 0 (errors ++ [last]) with
  | Some e => e
  | None => last
  end.

(** How one run of the function given to [retry] ends. *)
Inductive attempt (D : Type) : Type :=
| Resolved (d : D)
| Threw (e : error)
| Bailed (e : error).
Arguments Resolved {D} d.
Arguments Threw {D} e.
Arguments Bailed {D} e.

Definition isNotFound (e : error) : bool :=
  match errStatus e with
  | Some s => s =? 404
  | None => false
  end.

(** The function given to [retry] by [scrapeWithRetry]. *)
Definition fetchAttempt (env : environment) (url : string) (num : nat)
  : M (attempt document) :=
  let* r := request env url num in
  match r with
  | Responds d => ret (Resolved d)
  | Rejects e =>
      logger LError ("抓取錯誤: " +:+ url) (MetaError (errMessage e)) ;;
      if isNotFound e then ret (Bailed e) else ret (Threw e)
  end.

(** The retry operation: attempt [num], with the delays still unused and
    the errors of the earlier attempts. *)
Fixpoint retryFrom (env : environment) (url : string) (num : nat)
    (delays : list Z) (errors : list error) : M document :=
  let* a := fetchAttempt env url num in
  match a with
  | Resolved d => ret d
  | Bailed e => throw e
  | Threw e =>
      match delays with
      | [] => throw (mainError errors e)
      | t :: delays' =>
          logger LWarn ("重試第 " +:+ pretty num +:+ " 次: " +:+ url)
                 (MetaError (errMessage e)) ;;
          sleep url t ;;
          retryFrom env url (S num) delays' (errors ++ [e])
      end
  end.

Definition scrapeWithRetry (env : environment) (url : string) : M document :=
  retryFrom env url 1 (timeouts scrapeOptions (random env url)) [].

(** ** The three extraction loops of [scrapeCarparks] *)

(** The object literal [carparkData] of the garage loop. *)
Definition garageCarpark (f : garageFields) : carpark :=
  let sp :=
    match streetParkingInfo f with
    | Some i =>
        StreetParking.mk (JS.or_zero (JS.parseInt (totalSpacesText i)))
                         (JS.or_zero (JS.parseInt (availableSpacesText i)))
                         (JS.trim (parkingFeeText i))
    | None => StreetParking.mk 0 0 ""
    end in
  {| name := JS.trim (carparkNameText f);
     address := JS.trim (carparkAddressText f);
     capacity := JS.or_zero (JS.parseInt (carparkCapacityText f));
     latitude := dataLat f;
     longitude := dataLng f;
     nearbyBuildings := [];
     chargingStations := 0;
     chargingProvider := "";
     chargingType := "";
     isStreetParking := None;
     streetParking := sp;
     openingHours := Some (JS.or_str (JS.trim (openingHoursText f)) "24小時");
     contactNumber := Some (JS.or_str (JS.trim (contactText f)) "未提供");
     facilities := Some (List.map JS.trim (facilitiesTexts f));
     lastUpdated := Some (isoNow f);
     hasCharging := None;
     displayInfo := None |}.

(** The body of [$('.carpark-item').each]: the whole of it is inside a
    [try], whose [catch] logs and goes on. *)
Definition garageBody (el : extraction garageFields) (carparks : list carpark)
  : M (list carpark) :=
  match el with
  | Extracted f =>
      let carparkData := garageCarpark f in
      if JS.truthy (validateCarpark carparkData)
      then ret (carparks ++ [carparkData])
      else logger LWarn "無效的停車場數據" (MetaData carparkData) ;; ret carparks
  | Raises e html =>
      logger LError "解析停車場數據錯誤" (MetaElement (errMessage e) html) ;;
      ret carparks
  end.

(** The object literal pushed by the street zone loop. *)
Definition zoneCarpark (f : zoneFields) : carpark :=
  let totalSpaces := JS.or_zero (JS.parseInt (zoneTotalSpacesText f)) in
  {| name := "路旁泊車區 - " +:+ JS.trim (zoneNameText f);
     address := JS.trim (zoneAddressText f);
     capacity := totalSpaces;
     latitude := zoneLat f;
     longitude := zoneLng f;
     nearbyBuildings := [];
     chargingStations := 0;
     chargingProvider := "";
     chargingType := "";
     isStreetParking := Some true;
     streetParking :=
       StreetParking.mk totalSpaces totalSpaces (JS.trim (zoneParkingFeeText f));
     openingHours := None;
     contactNumber := None;
     facilities := None;
     lastUpdated := None;
     hasCharging := None;
     displayInfo := None |}.

(** The body of [$('.street-parking-zone').each]: no [try] around it. *)
Definition zoneBody (el : extraction zoneFields) (carparks : list carpark)
  : M (list carpark) :=
  match el with
  | Extracted f => ret (carparks ++ [zoneCarpark f])
  | Raises e _ => throw e
  end.

(** A value of [chargerMap]. *)
Record chargerInfo : Type := mkInfo {
  count : Z;
  providers : string;
  types : string
}.

Definition chargerEntry (f : chargerFields) : chargerInfo :=
  {| count := JS.or_zero (JS.parseInt (JS.trim (chargerCountText f)));
     providers := JS.join ", " (List.map JS.trim (providerTexts f));
     types := JS.join ", " (List.map JS.trim (chargerTypeTexts f)) |}.

(** The body of [$('.charger-location').each]: no [try] around it. *)
Definition chargerBody (el : extraction chargerFields)
    (chargerMap : gmap string chargerInfo) : M (gmap string chargerInfo) :=
  match el with
  | Extracted f =>
      ret (<[JS.trim (locationNameText f) := chargerEntry f]> chargerMap)
  | Raises e _ => throw e
  end.

(** ** The merge loop *)

Definition setCharging (c : carpark) (stations : Z) (provider type : string)
    (has : bool) : carpark :=
  {| name := name c; address := address c; capacity := capacity c;
     latitude := latitude c; longitude := longitude c;
     nearbyBuildings := nearbyBuildings c;
     chargingStations := stations;
     chargingProvider := provider;
     chargingType := type;
     isStreetParking := isStreetParking c;
     streetParking := streetParking c;
     openingHours := openingHours c; contactNumber := contactNumber c;
     facilities := facilities c; lastUpdated := lastUpdated c;
     hasCharging := Some has;
     displayInfo := displayInfo c |}.

Definition setDisplayInfo (c : carpark) (info : string) : carpark :=
  {| name := name c; address := address c; capacity := capacity c;
     latitude := latitude c; longitude := longitude c;
     nearbyBuildings := nearbyBuildings c;
     chargingStations := chargingStations c;
     chargingProvider := chargingProvider c;
     chargingType := chargingType c;
     isStreetParking := isStreetParking c;
     streetParking := streetParking c;
     openingHours := openingHours c; contactNumber := contactNumber c;
     facilities := facilities c; lastUpdated := lastUpdated c;
     hasCharging := hasCharging c;
     displayInfo := Some info |}.

(** The body of [carparks.forEach]. *)
Definition mergeCharger (chargerMap : gmap string chargerInfo) (c : carpark)
  : carpark :=
  let c' :=
    match chargerMap !! name c with
    | Some chargerInfo =>
        setCharging c (count chargerInfo) (providers chargerInfo)
                    (types chargerInfo) true
    | None =>
        setCharging c (chargingStations c) (chargingProvider c)
                    (chargingType c) false
    end in
  setDisplayInfo c' (formatDisplayInfo c').

(** ** Filter and sort *)

(** [Array.prototype.sort] with a comparison function: a stable sort. *)
Fixpoint insertBy {A} (cmp : A -> A -> Z) (x : A) (l : list A) : list A :=
  match l with
  | [] => [x]
  | y :: l' => if cmp x y <=? 0 then x :: l else y :: insertBy cmp x l'
  end.

Definition sortBy {A} (cmp : A -> A -> Z) (l : list A) : list A :=
  fold_right (insertBy cmp) [] l.

Definition validated (env : environment) (carparks : list carpark)
  : list carpark :=
  sortBy (fun a b => localeCompare env (name a) (name b))
         (List.filter (fun c => JS.truthy (validateCarpark c)) carparks).

(** ** The store *)

(** [CarparkModel.findOne().sort({ lastUpdated: -1 })]. *)
Definition latest (docs : list storedDoc) : option storedDoc :=
  fold_left
    (fun best d =>
       match best with
       | None => Some d
       | Some b => if docLastUpdated b <? docLastUpdated d then Some d else Some b
       end)
    docs None.

Definition findOneLatest : M (option storedDoc) :=
  fun w => (Ok (latest (collection w)), w).

(** [CarparkModel.create]. *)
Definition create (d : storedDoc) : M unit :=
  fun w =>
    (Ok tt, mkWorld (collection w ++ [d]) (logs w) (requests w) (sleeps w)).

(** ** [scrapeCarparks] *)

Definition hk01Url : string := "https://hk01data.github.io/carpark/".
Definition kilowattUrl : string := "https://www.kilowatt.hk/chargers/".

(** [Promise.all] of the two fetches: both run; it rejects as soon as one
    of them does.  The world records the requests, log records and delays
    of the first fetch and then those of the second: how the two interleave
    in time, and what the second still does after a rejection of the first,
    is not modelled. *)
Definition promiseAll (env : environment) (a b : M document)
  : M (document * document) :=
  fun w =>
    let '(ra, w1) := a w in
    let '(rb, w2) := b w1 in
    match ra, rb with
    | Ok x, Ok y => (Ok (x, y), w2)
    | Throw e, Ok _ => (Throw e, w2)
    | Ok _, Throw e => (Throw e, w2)
    | Throw e1, Throw e2 =>
        (Throw (if secondRejectsFirst env then e2 else e1), w2)
    end.

Definition emptyBatch : error := mkError "沒有有效的停車場數據" None.

(** The three extraction loops.  All three selections are made with [$],
    the page loaded from [hk01Data]. *)
Definition extract (hk01Data : document)
  : M (list carpark * gmap string chargerInfo) :=
  let* garages := each garageBody (carparkItems hk01Data) [] in
  let* carparks := each zoneBody (streetParkingZones hk01Data) garages in
  let* chargerMap := each chargerBody (chargerLocations hk01Data) ∅ in
  ret (carparks, chargerMap).

(** The body of the [try] after the cache check.  [$k], the page loaded
    from [kilowattData], is not read. *)
Definition refresh (env : environment) : M (list carpark) :=
  let* pages :=
    promiseAll env (scrapeWithRetry env hk01Url) (scrapeWithRetry env kilowattUrl) in
  let hk01Data := fst pages in
  let* parsed := extract hk01Data in
  let merged := List.map (mergeCharger (snd parsed)) (fst parsed) in
  let validCarparks := validated env merged in
  if (length validCarparks =? 0)%nat then throw emptyBatch
  else
    create {| data := validCarparks; docLastUpdated := clockCreate env |} ;;
    ret validCarparks.

Definition isFresh (env : environment) (cachedData : storedDoc) : bool :=
  clockCheck env - docLastUpdated cachedData <? 3600000.

(** The [catch] of [scrapeCarparks]. *)
Definition fallback (env : environment) (e : error) : M (list carpark) :=
  logger LError "數據抓取過程錯誤" (MetaError (errMessage e)) ;;
  let* lastCache := findOneLatest in
  match lastCache with
  | Some c =>
      logger LInfo "使用緩存數據"
             (MetaCacheAge (clockFallback env - docLastUpdated c)) ;;
      ret (data c)
  | None => throw e
  end.

Definition scrapeCarparks (env : environment) : M (list carpark) :=
  tryCatch
    (let* cachedData := findOneLatest in
     match cachedData with
     | Some c => if isFresh env c then ret (data c) else refresh env
     | None => refresh env
     end)
    (fallback env).

(** ** Predicates used in the statements *)

(** The computation leaves the collection as it found it. *)
Definition keepsStore {A} (m : M A) : Prop :=
  forall w, collection (snd (m w)) = collection w.

(** The cache check does not return: there is no stored document, or the
    latest one is an hour old or more. *)
Definition stale (env : environment) (w : world) : Prop :=
  match latest (collection w) with
  | Some c => isFresh env c = false
  | None => True
  end.

(** [c] is a stored document and none has a later [lastUpdated]. *)
Definition mostRecent (docs : list storedDoc) (c : storedDoc) : Prop :=
  In c docs /\ forall d, In d docs -> docLastUpdated d <= docLastUpdated c.

(** [c] is the stored document with the latest [lastUpdated], every other
    one being strictly older. *)
Definition newest (docs : list storedDoc) (c : storedDoc) : Prop :=
  In c docs /\ forall d, In d docs -> d = c \/ docLastUpdated d < docLastUpdated c.

(** Every most recent document is an hour old or more at the cache check;
    this holds of the empty store. *)
Definition noFreshDocument (env : environment) (w : world) : Prop :=
  forall c, mostRecent (collection w) c ->
            3600000 <= clockCheck env - docLastUpdated c.

(** [n] is a finite number between [lo] and [hi]. *)
Definition within (lo hi : Z) (n : JS.number) : Prop :=
  exists q, n = JS.Fin q /\ (inject_Z lo <= q)%Q /\ (q <= inject_Z hi)%Q.

Definition nonZero (n : JS.number) : Prop :=
  forall q, n = JS.Fin q -> ~ (q == 0)%Q.

(** The validity rule in the words of the specification: a non-empty name,
    a latitude in [-90, 90] and a longitude in [-180, 180]. *)
Definition validAsSpecified (c : carpark) : Prop :=
  name c <> ""
  /\ within (-90) 90 (latitude c)
  /\ within (-180) 180 (longitude c).

(** The validity rule of [validateCarpark]: as above, and neither
    coordinate is zero. *)
Definition validAsCoded (c : carpark) : Prop :=
  name c <> ""
  /\ (within (-90) 90 (latitude c) /\ nonZero (latitude c))
  /\ (within (-180) 180 (longitude c) /\ nonZero (longitude c)).

(** The four tests that [validateCarpark] makes on one coordinate. *)
Definition coordinateOk (lo hi : Z) (n : JS.number) : bool :=
  JS.truthy (JS.VNum n) && negb (JS.isNaN n)
  && JS.ge n (JS.of_Z lo) && JS.le n (JS.of_Z hi).

(** The requests for the attempts [num], ..., [num + k - 1] on [url]. *)
Definition attempts (url : string) (num k : nat) : list (string * nat) :=
  List.map (fun i => (url, i)) (seq num k).


(** [Math.random()] lies in [0, 1). *)
Definition randomInRange (env : environment) (url : string) : Prop :=
  forall i, (0 <= random env url i)%Q /\ (random env url i < 1)%Q.

(** *** The extraction loops as functions of the page *)

(** The garages that the first loop pushes. *)
Fixpoint keptGarages (els : list (extraction garageFields)) : list carpark :=
  match els with
  | [] => []
  | Extracted f :: rest =>
      if JS.truthy (validateCarpark (garageCarpark f))
      then garageCarpark f :: keptGarages rest
      else keptGarages rest
  | Raises _ _ :: rest => keptGarages rest
  end.

(** The records that the first loop logs. *)
Fixpoint garageLogs (els : list (extraction garageFields)) : list logRecord :=
  match els with
  | [] => []
  | Extracted f :: rest =>
      if JS.truthy (validateCarpark (garageCarpark f))
      then garageLogs rest
      else mkLog LWarn "無效的停車場數據" (MetaData (garageCarpark f))
           :: garageLogs rest
  | Raises e html :: rest =>
      mkLog LError "解析停車場數據錯誤" (MetaElement (errMessage e) html)
      :: garageLogs rest
  end.

Definition appendLogs (ls : list logRecord) (w : world) : world :=
  mkWorld (collection w) (logs w ++ ls) (requests w) (sleeps w).

(** The table that the third loop builds from elements that all extract. *)
Definition chargerTable (fs : list chargerFields) (m : gmap string chargerInfo)
  : gmap string chargerInfo :=
  fold_left (fun m f => <[JS.trim (locationNameText f) := chargerEntry f]> m) fs m.

(** The charging fields as the two object literals set them. *)
Definition unmerged (c : carpark) : Prop :=
  chargingStations c = 0 /\ chargingProvider c = "" /\ chargingType c = "".

(** *** The summary line in the words of the specification

    The wording of the six parts of [displayInfo]. *)
Record wording : Type := mkWording {
  streetSpaces : Z -> string;
  feeIs : string -> string;
  garageSpaces : Z -> string;
  streetFeeIs : string -> string;
  stationsAre : Z -> string;
  hoursAre : string -> string
}.

(** The wording that the specification quotes. *)
Definition specifiedWording : wording :=
  {| streetSpaces := fun n => "Street parking: " +:+ JS.show n +:+ " units";
     feeIs := fun f => "Fee: " +:+ f;
     garageSpaces := fun n => "Parking units: " +:+ JS.show n;
     streetFeeIs := fun f => "Street fee: " +:+ f;
     stationsAre := fun n => "Charging stations: " +:+ JS.show n;
     hoursAre := fun h => "Hours: " +:+ h |}.

(** The wording of the template literals of [formatDisplayInfo]. *)
Definition codedWording : wording :=
  {| streetSpaces := fun n => "路邊泊車位: " +:+ JS.show n +:+ "個";
     feeIs := fun f => "收費: " +:+ f;
     garageSpaces := fun n => "停車場車位: " +:+ JS.show n +:+ "個";
     streetFeeIs := fun f => "路邊收費: " +:+ f;
     stationsAre := fun n => "充電站: " +:+ JS.show n +:+ "個";
     hoursAre := fun h => "營業時間: " +:+ h |}.

(** A part that is present when [p] holds. *)
Definition when (p : Prop) `{Decision p} (s : string) : option string :=
  if decide p then Some s else None.

(** The order of the parts as the specification gives it: each part is
    present or not, and the present ones are joined. *)
Definition displayInfoAs (L : wording) (c : carpark) : string :=
  let sp := streetParking c in
  let isZone := isStreetParking c = Some true in
  let hasFee := StreetParking.fee sp <> "" in
  let hasStreet := 0 < StreetParking.total sp in
  let hours := default "" (openingHours c) in
  JS.join " | "
    (omap id
       [ when isZone (streetSpaces L (capacity c));
         when (isZone /\ hasFee) (feeIs L (StreetParking.fee sp));
         when (~ isZone) (garageSpaces L (capacity c));
         when (~ isZone /\ hasStreet) (streetSpaces L (StreetParking.total sp));
         when (~ isZone /\ hasStreet /\ hasFee)
              (streetFeeIs L (StreetParking.fee sp));
         when (hasCharging c = Some true) (stationsAre L (chargingStations c));
         when (hours <> "") (hoursAre L hours) ]).

(** The records of a result; none when it is an error. *)
Definition records (r : result (list carpark)) : list carpark :=
  match r with Ok cs => cs | Throw _ => [] end.

(** ** Sample inputs *)

Module Sample.

Definition garageX : garageFields :=
  {| carparkNameText := " Garage X ";
     carparkAddressText := "1 Harbour Road";
     carparkCapacityText := "50";
     dataLat := JS.Fin 22.30;
     dataLng := JS.Fin 114.17;
     streetParkingInfo := None;
     openingHoursText := "";
     contactText := "";
     facilitiesTexts := [];
     isoNow := "2024-01-01T00:00:00.000Z" |}.

(** A garage on the equator. *)
Definition equator : carpark :=
  garageCarpark
    {| carparkNameText := "Equator Car Park";
       carparkAddressText := "";
       carparkCapacityText := "10";
       dataLat := JS.Fin 0;
       dataLng := JS.Fin 114.17;
       streetParkingInfo := None;
       openingHoursText := "";
       contactText := "";
       facilitiesTexts := [];
       isoNow := "2024-01-01T00:00:00.000Z" |}.

Definition zoneY : zoneFields :=
  {| zoneNameText := "Zone Y";
     zoneAddressText := "";
     zoneTotalSpacesText := "20";
     zoneLat := JS.Fin 22.31;
     zoneLng := JS.Fin 114.18;
     zoneParkingFeeText := "$2/hr" |}.

Definition chargerX : chargerFields :=
  {| locationNameText := "Garage X";
     providerTexts := ["ProviderA"];
     chargerTypeTexts := ["TypeB"];
     chargerCountText := "4" |}.

Definition emptyPage : document :=
  {| carparkItems := []; streetParkingZones := []; chargerLocations := [] |}.

Definition pageA : document :=
  {| carparkItems := [Extracted garageX];
     streetParkingZones := [Extracted zoneY];
     chargerLocations := [Extracted chargerX] |}.

(** Code unit order, standing for the collation of the locale. *)
Definition compareBytes (a b : string) : Z :=
  match String.compare a b with Lt => -1 | Eq => 0 | Gt => 1 end.

(** An environment in which both pages are served at the first attempt. *)
Definition serving (hk01 kilowatt : document) (now : Z) : environment :=
  {| httpGet := fun url _ =>
       if String.eqb url hk01Url then Responds hk01 else Responds kilowatt;
     random := fun _ _ => 0%Q;
     clockCheck := now;
     clockCreate := now + 1;
     clockFallback := now + 2;
     localeCompare := compareBytes;
     secondRejectsFirst := false |}.

(** An environment in which every request is rejected with [e]. *)
Definition down (e : error) : environment :=
  {| httpGet := fun _ _ => Rejects e;
     random := fun _ _ => 0%Q;
     clockCheck := 0;
     clockCreate := 1;
     clockFallback := 2;
     localeCompare := compareBytes;
     secondRejectsFirst := false |}.

Definition unavailable : error :=
  {| errMessage := "Request failed with status code 503";
     errStatus := Some 503 |}.

Definition emptyWorld : world :=
  {| collection := []; logs := []; requests := []; sleeps := [] |}.

(** A world whose store holds one snapshot of ten records, stored at
    time 0. *)
Definition tenRecords : storedDoc :=
  {| data := repeat (zoneCarpark zoneY) 10; docLastUpdated := 0 |}.

Definition worldTen : world :=
  {| collection := [tenRecords]; logs := []; requests := []; sleeps := [] |}.

(** [Garage X] after the merge with its charger entry. *)
Definition mergedX : carpark :=
  mergeCharger (chargerTable [chargerX] ∅) (garageCarpark garageX).




(** A charger location that lists the same provider and the same
    connector type twice. *)
Definition chargerTwice : chargerFields :=
  {| locationNameText := "Garage X";
     providerTexts := ["ProviderA"; "ProviderA"];
     chargerTypeTexts := ["TypeB"; "TypeB"];
     chargerCountText := "2" |}.

Definition pageTwice : document :=
  {| carparkItems := [Extracted garageX];
     streetParkingZones := [];
     chargerLocations := [Extracted chargerTwice] |}.

(** The car park page with no charger location, and a charger page with
    two locations of the same name. *)
Definition pageGarageOnly : document :=
  {| carparkItems := [Extracted garageX];
     streetParkingZones := [];
     chargerLocations := [] |}.

Definition chargerXFirst : chargerFields :=
  {| locationNameText := "Garage X";
     providerTexts := ["ProviderB"];
     chargerTypeTexts := ["TypeC"];
     chargerCountText := "2" |}.

Definition pageKilowatt : document :=
  {| carparkItems := [];
     streetParkingZones := [];
     chargerLocations := [Extracted chargerXFirst; Extracted chargerX] |}.

(** A store of three documents; the one stored last in time, with ten
    records, is neither the first nor the last of the collection. *)
Definition storedFirst : storedDoc :=
  {| data := [zoneCarpark zoneY]; docLastUpdated := 100 |}.

Definition storedNewest : storedDoc :=
  {| data := repeat (zoneCarpark zoneY) 10; docLastUpdated := 900 |}.

Definition storedSecond : storedDoc :=
  {| data := [garageCarpark garageX]; docLastUpdated := 500 |}.

Definition worldThree : world :=
  {| collection := [storedFirst; storedNewest; storedSecond];
     logs := []; requests := []; sleeps := [] |}.

End Sample.

(** * The rest of the pipeline and its callers *)

From Stdlib Require Import Sorted.

(** ** Predicates on stored documents and batches *)

Definition valid (c : carpark) : Prop := validateCarpark c = JS.VBool true.

(** Every stored document holds a non-empty list of valid records. *)
Definition storeOk (docs : list storedDoc) : Prop :=
  Forall (fun d => data d <> [] /\ Forall valid (data d)) docs.

(** The comparison function is a total preorder, as a collation is. *)
Definition collation (cmp : string -> string -> Z) : Prop :=
  (forall a b, cmp a b <= 0 \/ cmp b a <= 0)
  /\ (forall a b c, cmp a b <= 0 -> cmp b c <= 0 -> cmp a c <= 0).

(** Every record is before every later one in the order of the names. *)
Definition inNameOrder (env : environment) (cs : list carpark) : Prop :=
  StronglySorted (fun a b => localeCompare env (name a) (name b) <= 0) cs.

(** The document that a successful run writes. *)
Definition written (env : environment) (cs : list carpark) : storedDoc :=
  {| data := cs; docLastUpdated := clockCreate env |}.

(** ** The trace of a fetch *)

(** The number of the last attempt of a retry operation that is at attempt
    [num] with [delays] still unused: the first attempt that gets a
    response or status 404, or the one made when no delay is left. *)
Fixpoint lastAttempt (env : environment) (url : string) (num : nat)
    (delays : list Z) : nat :=
  match delays with
  | [] => num
  | _ :: delays' =>
      match httpGet env url num with
      | Responds _ => num
      | Rejects e =>
          if isNotFound e then num else lastAttempt env url (S num) delays'
      end
  end.

(** The record logged by the [catch] of an attempt, and the one logged by
    [onRetry]. *)
Definition failureLog (url : string) (e : error) : logRecord :=
  mkLog LError ("抓取錯誤: " +:+ url) (MetaError (errMessage e)).

Definition retryLog (url : string) (num : nat) (e : error) : logRecord :=
  mkLog LWarn ("重試第 " +:+ pretty num +:+ " 次: " +:+ url)
        (MetaError (errMessage e)).

(** What attempt [num] logs: nothing when it gets a response; else the
    failure, and the retry when the attempt is run again. *)
Definition attemptLogs (env : environment) (url : string) (retried : bool)
    (num : nat) : list logRecord :=
  match httpGet env url num with
  | Responds _ => []
  | Rejects e => failureLog url e :: (if retried then [retryLog url num e] else [])
  end.

Definition sum (l : list Z) : Z := fold_right Z.add 0 l.

(** ** The second page *)

(** The environment in which every response from the second address
    carries the page [f d] in place of [d]; everything else is as in
    [env]. *)
Definition mapSecondPage (f : document -> document) (r : response) : response :=
  match r with
  | Responds d => Responds (f d)
  | Rejects e => Rejects e
  end.

Definition withSecondPage (f : document -> document) (env : environment)
  : environment :=
  {| httpGet := fun url num =>
       if String.eqb url kilowattUrl
       then mapSecondPage f (httpGet env url num)
       else httpGet env url num;
     random := random env;
     clockCheck := clockCheck env;
     clockCreate := clockCreate env;
     clockFallback := clockFallback env;
     localeCompare := localeCompare env;
     secondRejectsFirst := secondRejectsFirst env |}.

(** The records that the [catch] of [scrapeCarparks] logs. *)
Definition fallbackLogs (env : environment) (e : error)
    (lastCache : option storedDoc) : list logRecord :=
  mkLog LError "數據抓取過程錯誤" (MetaError (errMessage e))
  :: match lastCache with
     | Some c =>
         [mkLog LInfo "使用緩存數據"
                (MetaCacheAge (clockFallback env - docLastUpdated c))]
     | None => []
     end.

(** ** The handler of [POST /api/carparks] *)

(** A value of the request body.  [JOther] is an object or an array, with
    what [Number] and [parseFloat] give on it. *)
Inductive json : Type :=
| JUndefined
| JNull
| JBool (b : bool)
| JNum (n : JS.number)
| JStr (s : string)
| JOther (asNumber asFloat : JS.number).

(** What the handler takes from its host.  [calculateDistance] is
    floating-point arithmetic on [Math.sin], [Math.cos], [Math.atan2] and
    [Math.sqrt], and the conversions of a string to a number round to a
    double: the handler is modelled for any functions in their place.
    [nodeEnv] is [process.env.NODE_ENV]. *)
Record host : Type := mkHost {
  calculateDistance : JS.number -> JS.number -> JS.number -> JS.number -> JS.number;
  numberOfString : string -> JS.number;
  parseFloatOfString : string -> JS.number;
  nodeEnv : option string
}.

(** ToBoolean on a value of the body. *)
Definition jsonTruthy (v : json) : bool :=
  match v with
  | JUndefined | JNull => false
  | JBool b => b
  | JNum n => JS.truthy (JS.VNum n)
  | JStr s => JS.truthy (JS.VStr s)
  | JOther _ _ => true
  end.

(** ToNumber, as the global [isNaN] applies it. *)
Definition toNumber (h : host) (v : json) : JS.number :=
  match v with
  | JUndefined => JS.NaN
  | JNull => JS.of_Z 0
  | JBool b => JS.of_Z (if b then 1 else 0)
  | JNum n => n
  | JStr s => numberOfString h s
  | JOther n _ => n
  end.

Definition parseFloatOf (h : host) (v : json) : JS.number :=
  match v with
  | JNum n => n
  | JStr s => parseFloatOfString h s
  | JOther _ x => x
  | JUndefined | JNull | JBool _ => JS.NaN
  end.

Inductive replyBody : Type :=
| ErrorBody (error : string) (message : option string)
| RecordsBody (cs : list carpark).

Record reply : Type := mkReply {
  status : Z;
  body : replyBody
}.

(** The test of the [if] of the handler. *)
Definition refused (h : host) (lat lng : json) : bool :=
  negb (jsonTruthy lat) || negb (jsonTruthy lng)
  || JS.isNaN (toNumber h lat) || JS.isNaN (toNumber h lng).

(** The function given to [carparks.filter]. *)
Definition nearby (h : host) (lat lng : json) (c : carpark) : bool :=
  JS.le (calculateDistance h (parseFloatOf h lat) (parseFloatOf h lng)
                           (latitude c) (longitude c))
        (JS.of_Z 5).

Definition postCarparks (env : environment) (h : host) (lat lng : json)
  : world -> reply * world :=
  fun w =>
    if refused h lat lng
    then ({| status := 400; body := ErrorBody "無效的經緯度" None |}, w)
    else
      match scrapeCarparks env w with
      | (Ok carparks, w') =>
          ({| status := 200;
              body := RecordsBody (List.filter (nearby h lat lng) carparks) |},
           w')
      | (Throw e, w') =>
          ({| status := 500;
              body :=
                ErrorBody "服務器錯誤"
                  (match nodeEnv h with
                   | Some mode =>
                       if String.eqb mode "development"
                       then Some (errMessage e) else None
                   | None => None
                   end) |},
           w')
      end.

(** ** The page script: the charging columns *)

(** An entry of [cp.chargers]; a property that is missing is [None]. *)
Record chargerJson : Type := mkChargerJson {
  operatorName : option string;
  connectorType : option string
}.

(** The array spread from [new Set(l)]: the values of [l], each once, in
    the order in which they first occur. *)
Definition distinct {A} `{EqDecision A} (l : list A) : list A :=
  fold_left (fun seen x => if decide (x ∈ seen) then seen else seen ++ [x]) l [].

(** The [charging] object that [searchNearby] builds; [chargers] is [None]
    when [cp.chargers] is missing. *)
Record charging : Type := mkCharging {
  chargingCount : Z;
  operators : list (option string);
  connectorTypes : list (option string)
}.

Definition chargingOf (chargers : option (list chargerJson)) : charging :=
  {| chargingCount :=
       match chargers with Some l => Z.of_nat (length l) | None => 0 end;
     operators :=
       distinct (match chargers with
                 | Some l => List.map operatorName l
                 | None => []
                 end);
     connectorTypes :=
       distinct (match chargers with
                 | Some l => List.map connectorType l
                 | None => []
                 end) |}.

(** A cell of the table of [displayResults]: the names joined, a missing
    name as the empty string, or the default text when this is empty. *)
Definition namesCell (names : list (option string)) : string :=
  JS.or_str (JS.join ", " (List.map (default "") names)) "未提供".

(** ** More sample inputs *)

Module Case.

(** Shorter names first: a total preorder on names. *)
Definition byLength (a b : string) : Z :=
  Z.of_nat (String.length a) - Z.of_nat (String.length b).

(** Both pages are served at the first attempt; names are ordered by
    length. *)
Definition serving (hk01 kilowatt : document) (now : Z) : environment :=
  {| httpGet := fun url _ =>
       if String.eqb url hk01Url then Responds hk01 else Responds kilowatt;
     random := fun _ _ => 0%Q;
     clockCheck := now;
     clockCreate := now + 1;
     clockFallback := now + 2;
     localeCompare := byLength;
     secondRejectsFirst := false |}.


End Case.

(** * Properties *)

(** ** The JavaScript primitives on examples *)

Example trim_ex : JS.trim "  Garage X
 " = "Garage X".
Proof. reflexivity. Qed.

Example parseInt_ex :
  JS.parseInt " 42 spaces" = Some 42 /\ JS.parseInt "n/a" = None
  /\ JS.parseInt "-7" = Some (-7) /\ JS.parseInt "0x1F" = Some 31.
Proof. repeat split; reflexivity. Qed.

(** ** What a computation leaves untouched *)

Create HintDb store.

Lemma keepsStore_ret {A} (a : A) : keepsStore (ret a).
Proof. by intros w. Qed.

Lemma keepsStore_throw {A} (e : error) : keepsStore (@throw A e).
Proof. by intros w. Qed.

Lemma keepsStore_bind {A B} (m : M A) (k : A -> M B) :
  keepsStore m -> (forall a, keepsStore (k a)) -> keepsStore (bind m k).
Proof.
  intros Hm Hk w. unfold bind. specialize (Hm w).
  destruct (m w) as [[a|e] w1]; simpl in *; [|done].
  by rewrite Hk.
Qed.

Lemma keepsStore_logger l msg md : keepsStore (logger l msg md).
Proof. by intros w. Qed.

Lemma keepsStore_request env url num : keepsStore (request env url num).
Proof. by intros w. Qed.

Lemma keepsStore_sleep url ms : keepsStore (sleep url ms).
Proof. by intros w. Qed.

Lemma keepsStore_each {E S} (body : E -> S -> M S) (els : list E) (s : S) :
  (forall e s', keepsStore (body e s')) -> keepsStore (each body els s).
Proof.
  intros Hb. revert s.
  induction els as [|e els IH]; intros s; simpl.
  - apply keepsStore_ret.
  - apply keepsStore_bind; [apply Hb | apply IH].
Qed.

#[export] Hint Resolve keepsStore_ret keepsStore_throw keepsStore_bind
  keepsStore_logger keepsStore_request keepsStore_sleep keepsStore_each : store.

Lemma keepsStore_fetchAttempt env url num : keepsStore (fetchAttempt env url num).
Proof.
  unfold fetchAttempt. apply keepsStore_bind; [auto with store|].
  intros [d|e]; [auto with store|].
  apply keepsStore_bind; [auto with store|].
  intros _. destruct (isNotFound e); auto with store.
Qed.

Lemma keepsStore_retryFrom env url delays :
  forall num errors, keepsStore (retryFrom env url num delays errors).
Proof.
  induction delays as [|t delays IH]; intros num errors; simpl;
    (apply keepsStore_bind; [apply keepsStore_fetchAttempt|]);
    intros [d|e|e]; auto 6 with store.
Qed.

Lemma keepsStore_scrapeWithRetry env url : keepsStore (scrapeWithRetry env url).
Proof. apply keepsStore_retryFrom. Qed.

Lemma keepsStore_promiseAll env (a b : M document) :
  keepsStore a -> keepsStore b -> keepsStore (promiseAll env a b).
Proof.
  intros Ha Hb w. unfold promiseAll. specialize (Ha w).
  destruct (a w) as [ra w1]. specialize (Hb w1).
  destruct (b w1) as [rb w2]. simpl in *.
  destruct ra, rb; simpl; congruence.
Qed.

Lemma keepsStore_garageBody el cs : keepsStore (garageBody el cs).
Proof.
  destruct el as [f|e html]; simpl; [|auto with store].
  destruct (JS.truthy _); auto with store.
Qed.

Lemma keepsStore_zoneBody el cs : keepsStore (zoneBody el cs).
Proof. destruct el; simpl; auto with store. Qed.

Lemma keepsStore_chargerBody el m : keepsStore (chargerBody el m).
Proof. destruct el; simpl; auto with store. Qed.

#[export] Hint Resolve keepsStore_scrapeWithRetry keepsStore_promiseAll
  keepsStore_garageBody keepsStore_zoneBody keepsStore_chargerBody : store.

Lemma keepsStore_extract d : keepsStore (extract d).
Proof. unfold extract. auto 10 with store. Qed.

(** A run that throws has written nothing to the store. *)
Lemma refresh_throw_keeps env w e w' :
  refresh env w = (Throw e, w') -> collection w' = collection w.
Proof.
  unfold refresh, bind at 1. intros H.
  pose proof (keepsStore_promiseAll env _ _
                (keepsStore_scrapeWithRetry env hk01Url)
                (keepsStore_scrapeWithRetry env kilowattUrl) w) as H1.
  destruct (promiseAll _ _ _ w) as [[pages|e1] w1]; simpl in *;
    [|by simplify_eq].
  unfold bind at 1 in H.
  pose proof (keepsStore_extract (fst pages) w1) as H2.
  destruct (extract _ w1) as [[parsed|e2] w2]; simpl in *;
    [|simplify_eq; congruence].
  destruct (length _ =? 0)%nat; [|discriminate].
  unfold throw in H. simplify_eq. congruence.
Qed.

(** ** The cache: freshness and fallback *)

Lemma scrapeCarparks_stale env w :
  stale env w -> scrapeCarparks env w = tryCatch (refresh env) (fallback env) w.
Proof.
  unfold stale, scrapeCarparks, tryCatch, bind, findOneLatest. intros H.
  destruct (latest (collection w)) as [c|]; [|done]. by rewrite H.
Qed.

Lemma fallback_some env e w c :
  latest (collection w) = Some c ->
  fst (fallback env e w) = Ok (data c)
  /\ collection (snd (fallback env e w)) = collection w.
Proof.
  intros H. unfold fallback, bind, logger, findOneLatest; simpl. by rewrite H.
Qed.

Lemma fallback_none env e w :
  latest (collection w) = None -> fst (fallback env e w) = Throw e.
Proof.
  intros H. unfold fallback, bind, logger, findOneLatest; simpl. by rewrite H.
Qed.

(** *** The latest stored document *)

Lemma latest_acc docs :
  forall acc d,
    fold_left
      (fun best d =>
         match best with
         | None => Some d
         | Some b => if docLastUpdated b <? docLastUpdated d then Some d else Some b
         end) docs acc = Some d ->
    acc = Some d \/ In d docs.
Proof.
  induction docs as [|x docs IH]; intros acc d; simpl; [by left|].
  intros H. apply IH in H as [H|H]; [|by right; right].
  destruct acc as [b|]; [|injection H as <-; right; by left].
  destruct (_ <? _); injection H as <-; [right; by left|by left].
Qed.

Lemma latest_In docs d : latest docs = Some d -> In d docs.
Proof. intros H. by apply latest_acc in H as [?|?]. Qed.

(** No stored document, and none kept so far, has a later time than the
    result of the query. *)
Lemma latest_acc_max docs :
  forall acc d,
    fold_left
      (fun best d =>
         match best with
         | None => Some d
         | Some b => if docLastUpdated b <? docLastUpdated d then Some d else Some b
         end) docs acc = Some d ->
    (forall b, acc = Some b -> docLastUpdated b <= docLastUpdated d)
    /\ (forall x, In x docs -> docLastUpdated x <= docLastUpdated d).
Proof.
  induction docs as [|x docs IH]; intros acc d; simpl.
  - intros ->. split; [intros b [= ->]; lia|intros x []].
  - intros H. apply IH in H as [Hacc Hdocs].
    destruct acc as [b|].
    + destruct (Z.ltb_spec (docLastUpdated b) (docLastUpdated x)) as [Hlt|Hge].
      * specialize (Hacc x eq_refl). split.
        -- intros b' [= <-]. lia.
        -- intros y [<-|Hy]; [done|by apply Hdocs].
      * specialize (Hacc b eq_refl). split.
        -- by intros b' [= <-].
        -- intros y [<-|Hy]; [lia|by apply Hdocs].
    + specialize (Hacc x eq_refl). split; [done|].
      intros y [<-|Hy]; [done|by apply Hdocs].
Qed.

Lemma latest_acc_Some docs :
  forall b, exists d,
    fold_left
      (fun best d =>
         match best with
         | None => Some d
         | Some b => if docLastUpdated b <? docLastUpdated d then Some d else Some b
         end) docs (Some b) = Some d.
Proof.
  induction docs as [|x docs IH]; intros b; simpl; [by exists b|].
  destruct (_ <? _); apply IH.
Qed.

(** The query returns a most recent document, and returns none only on the
    empty collection. *)
Lemma latest_mostRecent docs c : latest docs = Some c -> mostRecent docs c.
Proof.
  intros H. split; [by apply latest_In|].
  by apply latest_acc_max in H as [_ ?].
Qed.

Lemma latest_None docs : latest docs = None -> docs = [].
Proof.
  destruct docs as [|x docs]; [done|]. unfold latest. simpl.
  destruct (latest_acc_Some docs x) as [d ->]. discriminate.
Qed.

Lemma latest_nonempty docs : docs <> [] -> exists c, latest docs = Some c.
Proof.
  intros H. destruct (latest docs) as [c|] eqn:E; [by exists c|].
  by apply latest_None in E.
Qed.

(** The strictly newest document is the one that the query returns. *)
Lemma latest_newest docs c : newest docs c -> latest docs = Some c.
Proof.
  intros [Hin Hnew].
  destruct (latest_nonempty docs) as [c' Hc']; [by intros ->|].
  pose proof (latest_mostRecent _ _ Hc') as [Hin' Hmax].
  destruct (Hnew c' Hin') as [->|Hlt]; [done|].
  specialize (Hmax c Hin). lia.
Qed.

Lemma mostRecent_same_time docs c c' :
  mostRecent docs c -> mostRecent docs c' -> docLastUpdated c = docLastUpdated c'.
Proof. intros [H1 H2] [H3 H4]. specialize (H2 c' H3). specialize (H4 c H1). lia. Qed.

Lemma noFreshDocument_stale env w : noFreshDocument env w -> stale env w.
Proof.
  intros H. unfold stale. destruct (latest (collection w)) as [c|] eqn:E; [|done].
  apply latest_mostRecent, H in E. unfold isFresh. apply Z.ltb_ge. lia.
Qed.

(** C1. When the run fails as a whole, [scrapeCarparks] returns the data of
    a stored document that no other is more recent than (the newest one,
    when one is strictly so), whatever its age, and leaves the store as it
    was; on the empty store the error of the run is thrown to the caller.
    A fetch that ends in an error (either of the two) and an empty
    validated batch both make the run fail. *)
Theorem fallback_on_failure (env : environment) (w : world) :
  noFreshDocument env w ->
  (forall e w1, scrapeWithRetry env hk01Url w = (Throw e, w1) ->
     exists e', fst (refresh env w) = Throw e')
  /\ (forall r e w1 w2, scrapeWithRetry env hk01Url w = (r, w1) ->
        scrapeWithRetry env kilowattUrl w1 = (Throw e, w2) ->
        exists e', fst (refresh env w) = Throw e')
  /\ (forall pages w1 parsed w2,
        promiseAll env (scrapeWithRetry env hk01Url)
                   (scrapeWithRetry env kilowattUrl) w = (Ok pages, w1) ->
        extract (fst pages) w1 = (Ok parsed, w2) ->
        validated env (List.map (mergeCharger (snd parsed)) (fst parsed)) = [] ->
        refresh env w = (Throw emptyBatch, w2))
  /\ (forall e w', refresh env w = (Throw e, w') ->
        (collection w = [] -> fst (scrapeCarparks env w) = Throw e)
        /\ (collection w <> [] ->
            exists c,
              mostRecent (collection w) c
              /\ fst (scrapeCarparks env w) = Ok (data c)
              /\ collection (snd (scrapeCarparks env w)) = collection w)
        /\ (forall c, newest (collection w) c ->
              fst (scrapeCarparks env w) = Ok (data c)
              /\ collection (snd (scrapeCarparks env w)) = collection w)).
Proof.
  intros Hno. pose proof (noFreshDocument_stale _ _ Hno) as Hstale.
  split; [|split; [|split]].
  - intros e w1 H. unfold refresh, bind at 1, promiseAll. rewrite H.
    destruct (scrapeWithRetry env kilowattUrl w1) as [[d|e2] w2]; simpl; eauto.
  - intros r e w1 w2 H1 H2. unfold refresh, bind at 1, promiseAll.
    rewrite H1, H2. destruct r; simpl; eauto.
  - intros pages w1 parsed w2 H1 H2 H3. unfold refresh, bind at 1.
    rewrite H1. unfold bind at 1. rewrite H2. simpl. by rewrite H3.
  - intros e w' H. rewrite (scrapeCarparks_stale _ _ Hstale).
    unfold tryCatch. rewrite H.
    pose proof (refresh_throw_keeps _ _ _ _ H) as Hkeep.
    split; [|split].
    + intros Hempty. apply fallback_none. by rewrite Hkeep, Hempty.
    + intros Hne. destruct (latest_nonempty _ Hne) as [c Hc].
      exists c. split; [by apply latest_mostRecent|].
      rewrite <- Hkeep in Hc.
      destruct (fallback_some env e w' c Hc) as [Hr Hs]. split; congruence.
    + intros c Hc. apply latest_newest in Hc. rewrite <- Hkeep in Hc.
      destruct (fallback_some env e w' c Hc) as [Hr Hs]. split; congruence.
Qed.

(** C2. When a most recent stored document is less than 3,600,000 ms old
    at the cache check, [scrapeCarparks] returns the data of a most recent
    document (of the newest one, when one is strictly so) and changes
    nothing in the world: no request is sent, nothing is logged and nothing
    is written.  This is so 59 minutes after the document was stored; 61
    minutes after, the document is not fresh and the run is made. *)
Theorem fresh_cache_is_served (env : environment) (w : world) (c : storedDoc) :
  mostRecent (collection w) c ->
  (clockCheck env - docLastUpdated c < 3600000 ->
     (exists c', mostRecent (collection w) c'
                 /\ scrapeCarparks env w = (Ok (data c'), w))
     /\ (newest (collection w) c -> scrapeCarparks env w = (Ok (data c), w)))
  /\ (clockCheck env = docLastUpdated c + 59 * 60 * 1000 ->
        isFresh env c = true
        /\ exists c', mostRecent (collection w) c'
                      /\ scrapeCarparks env w = (Ok (data c'), w))
  /\ (clockCheck env = docLastUpdated c + 61 * 60 * 1000 ->
        isFresh env c = false
        /\ scrapeCarparks env w = tryCatch (refresh env) (fallback env) w).
Proof.
  intros Hc.
  assert (exists c', latest (collection w) = Some c') as [c' Hl].
  { apply latest_nonempty. destruct Hc as [Hin _]. by intros Hnil; rewrite Hnil in Hin. }
  pose proof (latest_mostRecent _ _ Hl) as Hc'.
  pose proof (mostRecent_same_time _ _ _ Hc Hc') as Htime.
  assert (clockCheck env - docLastUpdated c < 3600000 ->
          scrapeCarparks env w = (Ok (data c'), w)) as Hfresh.
  { intros Hlt. unfold scrapeCarparks, tryCatch, bind, findOneLatest.
    rewrite Hl. unfold isFresh. rewrite <- Htime.
    destruct (Z.ltb_spec (clockCheck env - docLastUpdated c) 3600000); [done|lia]. }
  split; [|split].
  - intros Hlt. split; [exists c'; split; [done|by apply Hfresh]|].
    intros Hnew. apply latest_newest in Hnew.
    rewrite Hnew in Hl. injection Hl as <-. by apply Hfresh.
  - intros Ht. split; [unfold isFresh; apply Z.ltb_lt; lia|].
    exists c'. split; [done|]. apply Hfresh. lia.
  - intros Ht. split; [unfold isFresh; apply Z.ltb_ge; lia|].
    apply scrapeCarparks_stale. unfold stale. rewrite Hl.
    unfold isFresh. rewrite <- Htime. apply Z.ltb_ge. lia.
Qed.

Lemma storedNewest_is_newest :
  newest (collection Sample.worldThree) Sample.storedNewest.
Proof.
  split; [right; by left|].
  intros d [<-|[<-|[<-|[]]]]; [right|by left|right]; simpl; lia.
Qed.

(** The fallback scenario: three stored documents, of which the newest,
    with ten records and two hours old, is in the middle of the collection,
    and a run whose validated batch is empty. *)
Lemma fallback_on_failure_witness :
  fst (scrapeCarparks (Sample.serving Sample.emptyPage Sample.emptyPage 7200900)
                      Sample.worldThree)
  = Ok (data Sample.storedNewest).
Proof.
  pose (env := Sample.serving Sample.emptyPage Sample.emptyPage 7200900).
  assert (noFreshDocument env Sample.worldThree) as Hs.
  { intros c Hc.
    rewrite (mostRecent_same_time _ _ _ Hc
               (latest_mostRecent _ _ (latest_newest _ _ storedNewest_is_newest))).
    simpl. lia. }
  destruct (fallback_on_failure env Sample.worldThree Hs) as (_ & _ & _ & H).
  destruct (H emptyBatch (snd (refresh env Sample.worldThree)) eq_refl)
    as (_ & _ & Hn).
  exact (proj1 (Hn _ storedNewest_is_newest)).
Defined.

Lemma fresh_cache_is_served_witness :
  scrapeCarparks (Sample.serving Sample.pageA Sample.emptyPage 3540900)
                 Sample.worldThree
  = (Ok (data Sample.storedNewest), Sample.worldThree).
Proof.
  pose proof storedNewest_is_newest as Hn.
  assert (mostRecent (collection Sample.worldThree) Sample.storedNewest) as Hm
    by (apply latest_mostRecent, latest_newest, Hn).
  refine (proj2 (proj1 (fresh_cache_is_served
                   (Sample.serving Sample.pageA Sample.emptyPage 3540900)
                   Sample.worldThree Sample.storedNewest Hm) _) Hn).
  simpl. lia.
Defined.

(** ** Validation *)

Lemma truthy_str s : JS.truthy (JS.VStr s) = true <-> s <> "".
Proof.
  simpl. rewrite negb_true_iff. split.
  - intros H ->. by rewrite String.eqb_refl in H.
  - intros H. by apply String.eqb_neq.
Qed.

Lemma coordinateOk_iff lo hi n :
  coordinateOk lo hi n = true <-> within lo hi n /\ nonZero n.
Proof.
  unfold coordinateOk, within, nonZero.
  destruct n as [|neg|q]; simpl.
  - split; [done|]. by intros [(q & ? & _) _].
  - split.
    + destruct neg; simpl; intros H; discriminate.
    + by intros [(q & ? & _) _].
  - rewrite !andb_true_iff, negb_true_iff, !Qle_bool_iff.
    split.
    + intros [[[Hz _] Hlo] Hhi]. split; [by exists q|].
      intros q' [= <-] Heq. apply Qeq_bool_iff in Heq. congruence.
    + intros [(q' & [= <-] & Hlo & Hhi) Hnz]. repeat split; try done.
      destruct (Qeq_bool q 0) eqn:E; [|done].
      apply Qeq_bool_iff in E. by destruct (Hnz q).
Qed.

Lemma and_true a b :
  JS.and a b = JS.VBool true <-> JS.truthy a = true /\ b = JS.VBool true.
Proof.
  unfold JS.and. destruct (JS.truthy a) eqn:E.
  - by split; [|intros [_ ?]].
  - split; [|by intros [? _]]. intros ->. by simpl in E.
Qed.

Lemma truthy_and a b : JS.truthy (JS.and a b) = JS.truthy a && JS.truthy b.
Proof. unfold JS.and. by destruct (JS.truthy a) eqn:E. Qed.

Lemma VBool_true b : JS.VBool b = JS.VBool true <-> b = true.
Proof. split; congruence. Qed.

Lemma validateCarpark_checks c :
  validateCarpark c = JS.VBool true
  <-> JS.truthy (JS.VStr (name c)) = true
      /\ coordinateOk (-90) 90 (latitude c) = true
      /\ coordinateOk (-180) 180 (longitude c) = true.
Proof.
  unfold validateCarpark, coordinateOk.
  rewrite and_true, !truthy_and, VBool_true.
  change (JS.truthy (JS.VBool ?b)) with b.
  rewrite !andb_true_iff. tauto.
Qed.

Lemma validateCarpark_truthy c :
  JS.truthy (validateCarpark c) = true <-> validateCarpark c = JS.VBool true.
Proof.
  unfold validateCarpark. rewrite and_true, truthy_and, VBool_true.
  change (JS.truthy (JS.VBool ?b)) with b.
  by rewrite andb_true_iff.
Qed.

Lemma insertBy_perm {A} (cmp : A -> A -> Z) x l :
  Permutation (insertBy cmp x l) (x :: l).
Proof.
  induction l as [|y l IH]; simpl; [done|].
  destruct (cmp x y <=? 0); [done|].
  rewrite IH. apply perm_swap.
Qed.

Lemma sortBy_perm {A} (cmp : A -> A -> Z) l : Permutation (sortBy cmp l) l.
Proof.
  induction l as [|x l IH]; simpl; [done|].
  rewrite insertBy_perm. by constructor.
Qed.

Lemma validated_In env cs c :
  In c (validated env cs) <-> In c cs /\ validateCarpark c = JS.VBool true.
Proof.
  unfold validated. split.
  - intros H. apply (Permutation_in _ (sortBy_perm _ _)) in H.
    apply filter_In in H as [H1 H2]. split; [done|].
    by apply validateCarpark_truthy.
  - intros [H1 H2].
    apply (Permutation_in _ (Permutation_sym (sortBy_perm _ _))).
    apply filter_In. split; [done|]. by apply validateCarpark_truthy.
Qed.

(** C3, as stated, fails: a garage on the equator has a non-empty name and
    coordinates in range, and [validateCarpark] does not return [true]. *)
Lemma zero_latitude_not_valid :
  ~ (validateCarpark Sample.equator = JS.VBool true
     <-> validAsSpecified Sample.equator).
Proof.
  intros [_ H].
  assert (validAsSpecified Sample.equator) as Hv.
  { split; [done|]. split; eexists; (split; [reflexivity|]); done. }
  specialize (H Hv). vm_compute in H. discriminate.
Qed.

(** C3, amended. [validateCarpark] returns [true] exactly when the name is
    not empty and the latitude and the longitude are finite, not zero, and
    in [-90, 90] and [-180, 180]; any other result is falsy, and the
    validated batch holds exactly the candidates on which it returns
    [true]. *)
Theorem validateCarpark_true_iff (c : carpark) :
  (validateCarpark c = JS.VBool true <-> validAsCoded c)
  /\ (validateCarpark c <> JS.VBool true <-> JS.truthy (validateCarpark c) = false)
  /\ (forall env cs,
        In c (validated env cs) <-> In c cs /\ validateCarpark c = JS.VBool true).
Proof.
  split; [|split].
  - rewrite validateCarpark_checks, truthy_str, !coordinateOk_iff. done.
  - rewrite <- validateCarpark_truthy. by destruct (JS.truthy _).
  - intros env cs. apply validated_In.
Qed.

(** ** The retry policy *)

Lemma round_ge (z : Z) (x : Q) : (inject_Z z <= x)%Q -> z <= round x.
Proof.
  intros H. unfold round. rewrite <- (Qfloor_Z z).
  apply Qfloor_resp_le. lra.
Qed.

Lemma createTimeout_bounds attempt rnd :
  (0 <= rnd)%Q ->
  2000 <= createTimeout attempt scrapeOptions rnd <= 5000.
Proof.
  intros Hr. unfold createTimeout, scrapeOptions; simpl.
  split; [|apply Z.le_min_r].
  apply Z.min_glb; [|lia].
  apply round_ge.
  assert (1 <= 2 ^ Z.of_nat attempt) as Hp
    by (pose proof (Z.pow_pos_nonneg 2 (Z.of_nat attempt)); lia).
  assert (inject_Z 1 <= inject_Z (2 ^ Z.of_nat attempt))%Q as Hq
    by (by rewrite <- Zle_Qle).
  change (inject_Z 1) with 1%Q in Hq.
  change (inject_Z (Z.max 2000 1)) with 2000%Q.
  change (inject_Z 2000) with 2000%Q.
  nra.
Qed.

Lemma insertAscending_Forall (P : Z -> Prop) x l :
  P x -> Forall P l -> Forall P (insertAscending x l).
Proof.
  intros Hx Hl. induction Hl as [|y l Hy Hl IH]; simpl.
  - by repeat constructor.
  - destruct (x <=? y); repeat constructor; done.
Qed.

Lemma insertAscending_length x l :
  length (insertAscending x l) = S (length l).
Proof.
  induction l as [|y l IH]; simpl; [done|].
  destruct (x <=? y); simpl; by rewrite ?IH.
Qed.

Lemma sortAscending_Forall (P : Z -> Prop) l :
  Forall P l -> Forall P (sortAscending l).
Proof.
  induction 1; simpl; [constructor|]. by apply insertAscending_Forall.
Qed.

Lemma sortAscending_length l : length (sortAscending l) = length l.
Proof.
  induction l as [|x l IH]; simpl; [done|].
  by rewrite insertAscending_length, IH.
Qed.

Lemma timeouts_bounds env url :
  randomInRange env url ->
  length (timeouts scrapeOptions (random env url)) = 3%nat
  /\ Forall (fun d => 2000 <= d <= 5000) (timeouts scrapeOptions (random env url)).
Proof.
  intros Hr. unfold timeouts. split.
  - by rewrite sortAscending_length, length_map, length_seq.
  - apply sortAscending_Forall, List.Forall_map, List.Forall_forall.
    intros i _. apply createTimeout_bounds, Hr.
Qed.



(** One step of the retry operation. *)
Lemma retryFrom_step env url num delays errors w :
  retryFrom env url num delays errors w =
    match httpGet env url num with
    | Responds d => (Ok d, pushRequest url num w)
    | Rejects e =>
        let w1 :=
          pushLog (mkLog LError ("抓取錯誤: " +:+ url) (MetaError (errMessage e)))
                  (pushRequest url num w) in
        if isNotFound e then (Throw e, w1)
        else
          match delays with
          | [] => (Throw (mainError errors e), w1)
          | t :: delays' =>
              retryFrom env url (S num) delays' (errors ++ [e])
                (pushSleep url t
                   (pushLog (mkLog LWarn ("重試第 " +:+ pretty num +:+ " 次: " +:+ url)
                                   (MetaError (errMessage e))) w1))
          end
    end.
Proof.
  destruct delays; simpl; unfold bind, fetchAttempt, bind, request, logger, sleep;
    destruct (httpGet env url num) as [d|e]; simpl; try done;
    destruct (isNotFound e); done.
Qed.




(** ** The extraction loops *)

Lemma appendLogs_nil w : appendLogs [] w = w.
Proof. destruct w. unfold appendLogs; simpl. by rewrite app_nil_r. Qed.

Lemma appendLogs_cons r ls w : appendLogs (r :: ls) w = appendLogs ls (pushLog r w).
Proof. unfold appendLogs, pushLog; simpl. by rewrite <- app_assoc. Qed.

(** The garage loop never throws. *)
Lemma each_garageBody els :
  forall cs w,
    each garageBody els cs w
    = (Ok (cs ++ keptGarages els), appendLogs (garageLogs els) w).
Proof.
  induction els as [|[f|e html] els IH]; intros cs w; simpl.
  - by rewrite app_nil_r, appendLogs_nil.
  - unfold bind at 1.
    destruct (JS.truthy (validateCarpark (garageCarpark f))); simpl.
    + by rewrite IH, <- app_assoc.
    + by rewrite IH, appendLogs_cons.
  - unfold bind at 1. simpl. by rewrite IH, appendLogs_cons.
Qed.

(** The zone loop on elements that all extract. *)
Lemma each_zoneBody_extracted fs :
  forall cs w,
    each zoneBody (List.map Extracted fs) cs w
    = (Ok (cs ++ List.map zoneCarpark fs), w).
Proof.
  induction fs as [|f fs IH]; intros cs w; simpl.
  - by rewrite app_nil_r.
  - unfold bind at 1. simpl. by rewrite IH, <- app_assoc.
Qed.

(** The zone loop stops at the first element that raises. *)
Lemma each_zoneBody_raises fs e html rest cs w :
  each zoneBody (List.map Extracted fs ++ Raises e html :: rest) cs w
  = (Throw e, w).
Proof.
  revert cs. induction fs as [|f fs IH]; intros cs; simpl; [done|].
  unfold bind at 1. simpl. apply IH.
Qed.

(** Every list of elements is a run of extracted ones, followed or not by
    one that raises. *)
Lemma extraction_prefix {F} (els : list (extraction F)) :
  (exists fs, els = List.map Extracted fs)
  \/ (exists fs e html rest, els = List.map Extracted fs ++ Raises e html :: rest).
Proof.
  induction els as [|[f|e html] els IH].
  - left. by exists [].
  - destruct IH as [(fs & ->)|(fs & e & html & rest & ->)].
    + left. by exists (f :: fs).
    + right. by exists (f :: fs), e, html, rest.
  - right. by exists [], e, html, els.
Qed.

Lemma each_zoneBody_Ok els cs w cs' w' :
  each zoneBody els cs w = (Ok cs', w') ->
  w' = w /\ exists fs, els = List.map Extracted fs /\ cs' = cs ++ List.map zoneCarpark fs.
Proof.
  destruct (extraction_prefix els) as [(fs & ->)|(fs & e & html & rest & ->)].
  - rewrite each_zoneBody_extracted. intros [= <- <-]. eauto.
  - by rewrite each_zoneBody_raises.
Qed.

Lemma each_chargerBody_extracted fs :
  forall m w,
    each chargerBody (List.map Extracted fs) m w = (Ok (chargerTable fs m), w).
Proof.
  induction fs as [|f fs IH]; intros m w; simpl; [done|].
  unfold bind at 1. simpl. by rewrite IH.
Qed.

Lemma each_chargerBody_raises fs e html rest m w :
  each chargerBody (List.map Extracted fs ++ Raises e html :: rest) m w
  = (Throw e, w).
Proof.
  revert m. induction fs as [|f fs IH]; intros m; simpl; [done|].
  unfold bind at 1. simpl. apply IH.
Qed.

Lemma each_chargerBody_Ok els m w m' w' :
  each chargerBody els m w = (Ok m', w') ->
  w' = w /\ exists fs, els = List.map Extracted fs /\ m' = chargerTable fs m.
Proof.
  destruct (extraction_prefix els) as [(fs & ->)|(fs & e & html & rest & ->)].
  - rewrite each_chargerBody_extracted. intros [= <- <-]. eauto.
  - by rewrite each_chargerBody_raises.
Qed.

(** What a successful [extract] returns. *)
Lemma extract_Ok d w carparks chargerMap w' :
  extract d w = (Ok (carparks, chargerMap), w') ->
  exists zs cs,
    streetParkingZones d = List.map Extracted zs
    /\ chargerLocations d = List.map Extracted cs
    /\ carparks = keptGarages (carparkItems d) ++ List.map zoneCarpark zs
    /\ chargerMap = chargerTable cs ∅
    /\ w' = appendLogs (garageLogs (carparkItems d)) w.
Proof.
  unfold extract, bind at 1. rewrite each_garageBody. simpl.
  unfold bind at 1.
  destruct (each zoneBody _ _ _) as [[cs1|e1] w1] eqn:Hz; [|done].
  apply each_zoneBody_Ok in Hz as (-> & zs & Hzs & ->).
  unfold bind at 1.
  destruct (each chargerBody _ _ _) as [[m1|e2] w2] eqn:Hc; [|done].
  apply each_chargerBody_Ok in Hc as (-> & cs & Hcs & ->).
  unfold ret. intros [= <- <- <-]. by exists zs, cs.
Qed.

Lemma keptGarages_In els c :
  In c (keptGarages els) ->
  exists f, In (Extracted f) els /\ c = garageCarpark f
            /\ validateCarpark c = JS.VBool true.
Proof.
  induction els as [|[f|e html] els IH]; simpl; [done| |].
  - destruct (JS.truthy _) eqn:E.
    + intros [<-|H].
      * exists f. split; [by left|]. split; [done|].
        by apply validateCarpark_truthy.
      * destruct (IH H) as (g & ? & ?). exists g. split; [by right|done].
    + intros H. destruct (IH H) as (g & ? & ?). exists g. split; [by right|done].
  - intros H. destruct (IH H) as (g & ? & ?). exists g. split; [by right|done].
Qed.

Lemma chargerTable_lookup fs :
  forall m k info,
    chargerTable fs m !! k = Some info ->
    m !! k = Some info
    \/ exists f, In f fs /\ JS.trim (locationNameText f) = k /\ info = chargerEntry f.
Proof.
  induction fs as [|f fs IH]; intros m k info; simpl; [by left|].
  intros H. apply IH in H as [H|(g & ? & ? & ?)].
  - destruct (decide (JS.trim (locationNameText f) = k)) as [<-|Hne].
    + rewrite lookup_insert_eq in H. injection H as <-.
      right. exists f. split; [by left|done].
    + rewrite lookup_insert_ne in H by done. by left.
  - right. exists g. split; [by right|done].
Qed.

Lemma chargerTable_is_Some fs :
  forall m k,
    is_Some (chargerTable fs m !! k)
    <-> is_Some (m !! k) \/ exists f, In f fs /\ JS.trim (locationNameText f) = k.
Proof.
  induction fs as [|f fs IH]; intros m k; simpl.
  - split; [by left|]. by intros [?|(f & [] & _)].
  - rewrite IH, lookup_insert_is_Some'. split.
    + intros [[<-|?]|(g & ? & ?)]; eauto 6.
    + intros [?|(g & [<-|?] & ?)]; eauto 6.
Qed.

(** The entry of a name is that of the last element with this name. *)
Lemma chargerTable_last_wins fs1 f fs2 m :
  (forall g, In g fs2 ->
     JS.trim (locationNameText g) <> JS.trim (locationNameText f)) ->
  chargerTable (fs1 ++ f :: fs2) m !! JS.trim (locationNameText f)
  = Some (chargerEntry f).
Proof.
  intros Hlater. unfold chargerTable. rewrite fold_left_app. simpl.
  generalize (fold_left
                (fun m f => <[JS.trim (locationNameText f) := chargerEntry f]> m)
                fs1 m).
  intros m1. fold (chargerTable fs2 (<[JS.trim (locationNameText f) := chargerEntry f]> m1)).
  revert m1. induction fs2 as [|g fs2 IH]; intros m1; simpl.
  - apply lookup_insert_eq.
  - assert (JS.trim (locationNameText g) <> JS.trim (locationNameText f)) as Hne
      by (apply Hlater; by left).
    rewrite insert_insert_ne by done.
    apply IH. intros h Hh. apply Hlater. by right.
Qed.

(** ** The merge *)

Lemma garageCarpark_unmerged f : unmerged (garageCarpark f).
Proof. by repeat split. Qed.

Lemma zoneCarpark_unmerged f : unmerged (zoneCarpark f).
Proof. by repeat split. Qed.

Lemma extract_unmerged d w carparks chargerMap w' c :
  extract d w = (Ok (carparks, chargerMap), w') -> In c carparks -> unmerged c.
Proof.
  intros H Hc.
  apply extract_Ok in H as (zs & cs & _ & _ & -> & _ & _).
  apply in_app_or in Hc as [Hc|Hc].
  - apply keptGarages_In in Hc as (f & _ & -> & _). apply garageCarpark_unmerged.
  - apply in_map_iff in Hc as (f & <- & _). apply zoneCarpark_unmerged.
Qed.

(** C5. For a facility that comes out of the extraction loops, the merge
    looks its name up in the charger table.  There is an entry exactly when
    a charger location has this very string as its trimmed name; then the
    station count, the provider and the type are those of the entry (the
    parsed count and the two comma-joined lists of a location of that name)
    and [hasCharging] is true.  With no entry [hasCharging] is false, the
    count is 0 and the provider and the type are empty. *)
Theorem merge_sets_charging (d : document) (w w' : world)
    (carparks : list carpark) (chargerMap : gmap string chargerInfo)
    (c : carpark) :
  extract d w = (Ok (carparks, chargerMap), w') ->
  In c carparks ->
  let c' := mergeCharger chargerMap c in
  name c' = name c
  /\ (is_Some (chargerMap !! name c)
      <-> exists f, In (Extracted f) (chargerLocations d)
                    /\ JS.trim (locationNameText f) = name c)
  /\ match chargerMap !! name c with
     | Some info =>
         chargingStations c' = count info
         /\ chargingProvider c' = providers info
         /\ chargingType c' = types info
         /\ hasCharging c' = Some true
         /\ exists f,
              In (Extracted f) (chargerLocations d)
              /\ JS.trim (locationNameText f) = name c
              /\ count info = JS.or_zero (JS.parseInt (JS.trim (chargerCountText f)))
              /\ providers info = JS.join ", " (List.map JS.trim (providerTexts f))
              /\ types info = JS.join ", " (List.map JS.trim (chargerTypeTexts f))
     | None =>
         hasCharging c' = Some false
         /\ chargingStations c' = 0
         /\ chargingProvider c' = ""
         /\ chargingType c' = ""
     end.
Proof.
  intros Hex Hc.
  destruct (extract_unmerged _ _ _ _ _ _ Hex Hc) as (H0 & Hp & Ht).
  apply extract_Ok in Hex as (zs & cs & _ & Hcs & _ & -> & _).
  assert (forall f, In (Extracted f) (chargerLocations d) <-> In f cs) as Hin.
  { intros f. rewrite Hcs, in_map_iff. split; [|by exists f].
    by intros (g & [= ->] & ?). }
  split; [by unfold mergeCharger; destruct (_ !! _)|]. split.
  - rewrite chargerTable_is_Some, lookup_empty. split.
    + intros [[? [=]]|(f & ? & ?)]. exists f. by rewrite Hin.
    + intros (f & ? & ?). right. exists f. by rewrite <- Hin.
  - unfold mergeCharger.
    destruct (chargerTable cs ∅ !! name c) as [info|] eqn:Hl; simpl.
    + repeat split; try done.
      apply chargerTable_lookup in Hl as [Hl|(f & ? & ? & ->)];
        [by rewrite lookup_empty in Hl|].
      exists f. by rewrite Hin.
    + by repeat split.
Qed.

Lemma merge_sets_charging_witness :
  chargingStations Sample.mergedX = 4
  /\ chargingProvider Sample.mergedX = "ProviderA"
  /\ chargingType Sample.mergedX = "TypeB"
  /\ hasCharging Sample.mergedX = Some true.
Proof.
  pose proof (merge_sets_charging Sample.pageA Sample.emptyWorld _ _ _
                (garageCarpark Sample.garageX) eq_refl (or_introl eq_refl)) as H.
  destruct H as (_ & _ & H).
  change (chargerTable [Sample.chargerX] ∅ !! "Garage X")
    with (Some (chargerEntry Sample.chargerX)) in H.
  destruct H as (H1 & H2 & H3 & H4 & _).
  repeat split; assumption.
Defined.

(** C7. A street zone element becomes a car park flagged as street
    parking, named by the fixed marker followed by the trimmed zone name;
    its capacity and the total of its street parking are the parsed total
    of spaces, the available spaces equal the total, and its charging
    fields are zero and empty.  The loop pushes one such car park for each
    element, in order, and each of them is among the car parks that the
    extraction hands to the merge. *)
Theorem zone_materializes :
  (forall f : zoneFields,
     let c := zoneCarpark f in
     let totalSpaces := JS.or_zero (JS.parseInt (zoneTotalSpacesText f)) in
     isStreetParking c = Some true
     /\ name c = "路旁泊車區 - " +:+ JS.trim (zoneNameText f)
     /\ capacity c = totalSpaces
     /\ StreetParking.total (streetParking c) = totalSpaces
     /\ StreetParking.available (streetParking c)
        = StreetParking.total (streetParking c)
     /\ chargingStations c = 0
     /\ chargingProvider c = ""
     /\ chargingType c = "")
  /\ (forall fs cs w,
        each zoneBody (List.map Extracted fs) cs w
        = (Ok (cs ++ List.map zoneCarpark fs), w))
  /\ (forall d w carparks chargerMap w' f,
        extract d w = (Ok (carparks, chargerMap), w') ->
        In (Extracted f) (streetParkingZones d) ->
        In (zoneCarpark f) carparks).
Proof.
  split; [by intros f; repeat split|]. split.
  - intros fs cs w. apply each_zoneBody_extracted.
  - intros d w carparks chargerMap w' f Hex Hf.
    apply extract_Ok in Hex as (zs & cs & Hzs & _ & -> & _ & _).
    apply in_or_app. right. apply in_map.
    rewrite Hzs in Hf. apply in_map_iff in Hf as (g & [= ->] & ?). done.
Qed.

(** ** The summary line *)

Lemma when_true (p : Prop) `{Decision p} s : p -> when p s = Some s.
Proof. intros Hp. unfold when. by destruct (decide p). Qed.

Lemma when_false (p : Prop) `{Decision p} s : ~ p -> when p s = None.
Proof. intros Hp. unfold when. by destruct (decide p). Qed.

Lemma truthy_flag_true b : JS.truthy_flag b = true <-> b = Some true.
Proof. destruct b as [[]|]; simpl; split; congruence. Qed.

Lemma truthy_str_false s : JS.truthy (JS.VStr s) = false <-> s = "".
Proof.
  destruct (decide (s = "")) as [->|Hn]; [done|].
  apply truthy_str in Hn. rewrite Hn. split; [done|]. intros ->.
  by apply truthy_str in Hn.
Qed.

Lemma truthy_flag_false b : JS.truthy_flag b = false <-> b <> Some true.
Proof. rewrite <- truthy_flag_true. by destruct (JS.truthy_flag b). Qed.

(** [formatDisplayInfo] gives the parts in the specified order, in the
    wording of its template literals. *)
Lemma formatDisplayInfo_coded c :
  formatDisplayInfo c = displayInfoAs codedWording c.
Proof.
  unfold formatDisplayInfo, displayInfoAs. f_equal.
  set (sp := streetParking c).
  destruct (JS.truthy_flag (isStreetParking c)) eqn:Hz;
    [apply truthy_flag_true in Hz | apply truthy_flag_false in Hz];
  (destruct (JS.truthy (JS.VStr (StreetParking.fee sp))) eqn:Hf;
    [apply truthy_str in Hf | apply truthy_str_false in Hf]);
  destruct (Z.ltb_spec 0 (StreetParking.total sp)) as [Ht|Ht];
  (destruct (JS.truthy_flag (hasCharging c)) eqn:Hc;
    [apply truthy_flag_true in Hc | apply truthy_flag_false in Hc]);
  (destruct (openingHours c) as [h|] eqn:Hh;
    [destruct (JS.truthy (JS.VStr h)) eqn:Hhh;
       [apply truthy_str in Hhh | apply truthy_str_false in Hhh]|]);
  cbn [default id];
  repeat (first [ rewrite when_true by (intuition (try lia; try done))
                | rewrite when_false by (intuition (try lia; try done)) ]);
  reflexivity.
Qed.

(** C6, as stated, fails: the summary line of [Garage X] with four
    charging stations is not the line in the wording that the
    specification quotes. *)
Lemma displayInfo_not_in_specified_wording :
  displayInfo Sample.mergedX
  = Some "停車場車位: 50個 | 充電站: 4個 | 營業時間: 24小時"
  /\ displayInfoAs specifiedWording Sample.mergedX
     = "Parking units: 50 | Charging stations: 4 | Hours: 24小時"
  /\ displayInfo Sample.mergedX
     <> Some (displayInfoAs specifiedWording Sample.mergedX).
Proof. split; [|split]; [reflexivity|reflexivity|discriminate]. Qed.

(** C6, amended. The summary line of every merged car park is the join
    with [" | "] of the parts, in the specified order and with the
    specified conditions, each part in the wording of the template
    literals of [formatDisplayInfo]. *)
Theorem displayInfo_parts (chargerMap : gmap string chargerInfo) (c : carpark) :
  displayInfo (mergeCharger chargerMap c)
  = Some (displayInfoAs codedWording (mergeCharger chargerMap c)).
Proof.
  unfold mergeCharger. cbn [displayInfo setDisplayInfo].
  by rewrite formatDisplayInfo_coded.
Qed.

(** ** Errors raised while a record is extracted *)

Lemma keptGarages_app l1 l2 :
  keptGarages (l1 ++ l2) = keptGarages l1 ++ keptGarages l2.
Proof.
  induction l1 as [|[f|e html] l1 IH]; simpl; [done| |done].
  destruct (JS.truthy _); simpl; by rewrite IH.
Qed.

Lemma garageLogs_app l1 l2 :
  garageLogs (l1 ++ l2) = garageLogs l1 ++ garageLogs l2.
Proof.
  induction l1 as [|[f|e html] l1 IH]; simpl; [done| |by rewrite IH].
  destruct (JS.truthy _); simpl; by rewrite IH.
Qed.

(** In the garage loop an element that raises is logged and skipped: the
    car parks are those of the page without the element. *)
Lemma garage_error_is_isolated l1 e html l2 cs w :
  fst (each garageBody (l1 ++ Raises e html :: l2) cs w)
  = fst (each garageBody (l1 ++ l2) cs w)
  /\ In (mkLog LError "解析停車場數據錯誤" (MetaElement (errMessage e) html))
        (logs (snd (each garageBody (l1 ++ Raises e html :: l2) cs w))).
Proof.
  rewrite !each_garageBody. simpl. split.
  - by rewrite !keptGarages_app.
  - rewrite garageLogs_app. simpl. apply in_or_app. right.
    apply in_or_app. right. by left.
Qed.



(** C9 at the failing input. A provider and a connector type listed twice
    under a charger location appear twice in the joined strings. *)
Theorem repeated_provider_is_kept :
  List.map (fun c => (chargingProvider c, chargingType c))
    (records (fst (scrapeCarparks
                     (Sample.serving Sample.pageTwice Sample.emptyPage 0)
                     Sample.emptyWorld)))
  = [("ProviderA, ProviderA", "TypeB, TypeB")].
Proof. vm_compute. reflexivity. Qed.

(** The page fetched from the second address is never read: whatever it
    holds, the run is the same. *)
Lemma kilowatt_page_is_not_read hk01 k1 k2 now w :
  scrapeCarparks (Sample.serving hk01 k1 now) w
  = scrapeCarparks (Sample.serving hk01 k2 now) w.
Proof.
  assert (refresh (Sample.serving hk01 k1 now) w
          = refresh (Sample.serving hk01 k2 now) w) as Hr.
  { unfold refresh, bind at 1, promiseAll, scrapeWithRetry.
    rewrite !retryFrom_step. reflexivity. }
  unfold scrapeCarparks, tryCatch, bind at 1, findOneLatest.
  unfold bind at 1.
  destruct (latest (collection w)) as [c|]; [|by rewrite Hr].
  change (isFresh (Sample.serving hk01 k1 now) c)
    with (isFresh (Sample.serving hk01 k2 now) c).
  destruct (isFresh _ c); [done|]. by rewrite Hr.
Qed.

(** C10 at the failing input. The charger page lists [Garage X] twice, with
    2 and then 4 stations, and the car park page has no charger location:
    the table of the merge has no entry for [Garage X], which comes out
    without charging. *)
Theorem charger_listing_is_not_read :
  List.map (fun c => (name c, hasCharging c, chargingStations c))
    (records (fst (scrapeCarparks
                     (Sample.serving Sample.pageGarageOnly Sample.pageKilowatt 0)
                     Sample.emptyWorld)))
  = [("Garage X", Some false, 0)]
  /\ chargerTable [Sample.chargerXFirst; Sample.chargerX] ∅ !! "Garage X"
     = Some (chargerEntry Sample.chargerX).
Proof. split; vm_compute; reflexivity. Qed.

(** * More properties *)

(** ** What a run writes and what is served *)

Lemma extract_world d w :
  snd (extract d w) = appendLogs (garageLogs (carparkItems d)) w.
Proof.
  unfold extract, bind at 1. rewrite each_garageBody. unfold bind at 1.
  destruct (extraction_prefix (streetParkingZones d))
    as [(zs & ->)|(zs & e & html & rest & ->)].
  - rewrite each_zoneBody_extracted. unfold bind at 1.
    destruct (extraction_prefix (chargerLocations d))
      as [(cs & ->)|(cs & e & html & rest & ->)].
    + by rewrite each_chargerBody_extracted.
    + by rewrite each_chargerBody_raises.
  - by rewrite each_zoneBody_raises.
Qed.

(** What a run that succeeds has done. *)
Lemma refresh_Ok env w cs w' :
  refresh env w = (Ok cs, w') ->
  exists pages w1 parsed,
    promiseAll env (scrapeWithRetry env hk01Url)
               (scrapeWithRetry env kilowattUrl) w = (Ok pages, w1)
    /\ fst (extract (fst pages) w1) = Ok parsed
    /\ cs = validated env (List.map (mergeCharger (snd parsed)) (fst parsed))
    /\ cs <> []
    /\ w' = snd (create (written env cs)
                        (appendLogs (garageLogs (carparkItems (fst pages))) w1)).
Proof.
  unfold refresh, bind at 1. intros H.
  destruct (promiseAll _ _ _ w) as [[pages|e1] w1] eqn:Hp; [|done].
  unfold bind at 1 in H.
  pose proof (extract_world (fst pages) w1) as Hw.
  destruct (extract (fst pages) w1) as [[parsed|e2] w2] eqn:He; [|done].
  simpl in Hw. subst w2. cbv zeta in H.
  destruct (validated env _) as [|c cs'] eqn:Hv;
    [simpl in H; unfold throw in H; discriminate|].
  simpl in H. unfold bind, create, ret in H. simpl in H.
  injection H as <- <-. exists pages, w1, parsed.
  rewrite He, Hv. by repeat split.
Qed.

Lemma keepsStore_fallback env e : keepsStore (fallback env e).
Proof.
  intros w. unfold fallback, bind, logger, findOneLatest. simpl.
  by destruct (latest (collection w)).
Qed.

(** The two ways of [scrapeCarparks]. *)
Lemma scrapeCarparks_cases env w :
  (exists c, latest (collection w) = Some c /\ isFresh env c = true
             /\ scrapeCarparks env w = (Ok (data c), w))
  \/ (stale env w
      /\ scrapeCarparks env w = tryCatch (refresh env) (fallback env) w).
Proof.
  destruct (latest (collection w)) as [c|] eqn:Hl.
  - destruct (isFresh env c) eqn:Hf.
    + left. exists c. repeat split; try done.
      unfold scrapeCarparks, tryCatch, bind, findOneLatest. by rewrite Hl, Hf.
    + right. assert (stale env w) by (unfold stale; by rewrite Hl).
      split; [done|]. by apply scrapeCarparks_stale.
  - right. assert (stale env w) by (unfold stale; by rewrite Hl).
    split; [done|]. by apply scrapeCarparks_stale.
Qed.

(** A document newer than all the stored ones is the latest. *)
Lemma latest_snoc docs d :
  (forall x, In x docs -> docLastUpdated x < docLastUpdated d) ->
  latest (docs ++ [d]) = Some d.
Proof.
  intros Hnew. unfold latest. rewrite fold_left_app. simpl.
  fold (latest docs). destruct (latest docs) as [b|] eqn:Hb; [|done].
  apply latest_In in Hb. apply Hnew in Hb.
  by destruct (Z.ltb_spec (docLastUpdated b) (docLastUpdated d)); [|lia].
Qed.

(** The store only grows: a call leaves the stored documents as they are
    and adds at most one, which holds the records that the call returns,
    never an empty list, under the time of the write. *)
Theorem store_only_grows (env : environment) (w : world) :
  collection (snd (scrapeCarparks env w)) = collection w
  \/ exists cs,
       fst (scrapeCarparks env w) = Ok cs
       /\ cs <> []
       /\ collection (snd (scrapeCarparks env w))
          = collection w ++ [written env cs].
Proof.
  destruct (scrapeCarparks_cases env w) as [(c & _ & _ & ->)|[_ ->]];
    [by left|].
  unfold tryCatch. destruct (refresh env w) as [[cs|e] w'] eqn:Hr.
  - right. exists cs. apply refresh_Ok in Hr
      as (pages & w1 & parsed & Hp & _ & _ & Hne & ->).
    repeat split; try done. simpl. f_equal.
    pose proof (keepsStore_promiseAll env _ _
                  (keepsStore_scrapeWithRetry env hk01Url)
                  (keepsStore_scrapeWithRetry env kilowattUrl) w) as Hk.
    by rewrite Hp in Hk.
  - left. rewrite keepsStore_fallback. by apply refresh_throw_keeps in Hr.
Qed.

Lemma validated_valid env cs : Forall valid (validated env cs).
Proof.
  apply List.Forall_forall. intros c Hc. by apply validated_In in Hc as [_ ?].
Qed.

Lemma storeOk_latest docs c :
  storeOk docs -> latest docs = Some c -> data c <> [] /\ Forall valid (data c).
Proof.
  intros Hok Hl. apply latest_In in Hl.
  by apply (proj1 (List.Forall_forall _ _) Hok).
Qed.

Lemma scrapeCarparks_storeOk (env : environment) (w : world) :
  storeOk (collection w) ->
  storeOk (collection (snd (scrapeCarparks env w)))
  /\ (forall cs, fst (scrapeCarparks env w) = Ok cs ->
        cs <> [] /\ Forall valid cs).
Proof.
  intros Hok.
  destruct (scrapeCarparks_cases env w) as [(c & Hl & _ & ->)|[_ ->]]; simpl.
  - split; [done|]. intros cs [= <-]. by apply (storeOk_latest (collection w)).
  - unfold tryCatch. destruct (refresh env w) as [[cs|e] w'] eqn:Hr.
    + apply refresh_Ok in Hr as (pages & w1 & parsed & Hp & _ & Hcs & Hne & ->).
      assert (Forall valid cs) as Hv by (rewrite Hcs; apply validated_valid).
      split; [|by intros ? [= <-]].
      simpl.
      pose proof (keepsStore_promiseAll env _ _
                    (keepsStore_scrapeWithRetry env hk01Url)
                    (keepsStore_scrapeWithRetry env kilowattUrl) w) as Hk.
      rewrite Hp in Hk. simpl in Hk. rewrite Hk.
      apply Forall_app. split; [done|]. by repeat constructor.
    + pose proof (refresh_throw_keeps _ _ _ _ Hr) as Hk.
      rewrite keepsStore_fallback, Hk. split; [done|].
      intros cs Hcs. unfold fallback, bind, logger, findOneLatest in Hcs.
      simpl in Hcs. rewrite Hk in Hcs.
      destruct (latest (collection w)) as [c|] eqn:Hl; [|done].
      simpl in Hcs. injection Hcs as <-.
      by apply (storeOk_latest (collection w)).
Qed.

(** When every stored document holds a non-empty list of valid records,
    this is still so after a call, and the records that the call returns
    are not empty and all valid, whether they come from the store or from
    a run. *)
Theorem served_records_are_valid (env : environment) (w : world) :
  storeOk (collection w) ->
  storeOk (collection (snd (scrapeCarparks env w)))
  /\ (forall cs, fst (scrapeCarparks env w) = Ok cs ->
        cs <> [] /\ Forall valid cs).
Proof. apply scrapeCarparks_storeOk. Qed.

Lemma served_records_are_valid_witness :
  storeOk (collection Sample.worldTen)
  /\ storeOk (collection
               (snd (scrapeCarparks
                       (Sample.serving Sample.pageA Sample.emptyPage 7200000)
                       Sample.worldTen))).
Proof.
  assert (storeOk (collection Sample.worldTen)) as H.
  { repeat constructor; try discriminate; vm_compute; reflexivity. }
  split; [exact H|].
  exact (proj1 (served_records_are_valid
                  (Sample.serving Sample.pageA Sample.emptyPage 7200000)
                  Sample.worldTen H)).
Defined.

(** ** The order of the batch *)

Section Sorting.
Context {A : Type} (cmp : A -> A -> Z).
Hypothesis total : forall a b, cmp a b <= 0 \/ cmp b a <= 0.
Hypothesis trans : forall a b c, cmp a b <= 0 -> cmp b c <= 0 -> cmp a c <= 0.

Lemma insertBy_sorted x l :
  StronglySorted (fun a b => cmp a b <= 0) l ->
  StronglySorted (fun a b => cmp a b <= 0) (insertBy cmp x l).
Proof.
  induction 1 as [|y l Hl IH Hy]; simpl.
  - repeat constructor.
  - destruct (Z.leb_spec (cmp x y) 0) as [Hxy|Hxy].
    + constructor; [by constructor|].
      constructor; [done|].
      eapply List.Forall_impl; [|exact Hy]. intros z Hz. by eapply trans.
    + constructor; [done|].
      assert (cmp y x <= 0) as Hyx by (destruct (total x y); [lia|done]).
      apply List.Forall_forall. intros z Hz.
      apply (Permutation_in _ (insertBy_perm cmp x l)) in Hz as [<-|Hz];
        [done|].
      by apply (proj1 (List.Forall_forall _ _) Hy).
Qed.

Lemma sortBy_sorted l : StronglySorted (fun a b => cmp a b <= 0) (sortBy cmp l).
Proof.
  induction l as [|x l IH]; simpl; [constructor|]. by apply insertBy_sorted.
Qed.
End Sorting.

(** When [localeCompare] is a total preorder, the records of a run that
    succeeds are in the order of their names: each is before or equal to
    every later one. *)
Theorem batch_is_in_name_order (env : environment) (w w' : world)
    (cs : list carpark) :
  collation (localeCompare env) ->
  refresh env w = (Ok cs, w') ->
  inNameOrder env cs.
Proof.
  intros [Htot Htrans] Hr.
  apply refresh_Ok in Hr as (pages & w1 & parsed & _ & _ & -> & _ & _).
  unfold inNameOrder, validated.
  apply (sortBy_sorted (fun a b => localeCompare env (name a) (name b))).
  - intros a b. apply Htot.
  - intros a b c. apply Htrans.
Qed.

Lemma batch_is_in_name_order_witness :
  collation Case.byLength
  /\ inNameOrder (Case.serving Sample.pageA Sample.emptyPage 0)
       (records (fst (refresh (Case.serving Sample.pageA Sample.emptyPage 0)
                              Sample.emptyWorld))).
Proof.
  assert (collation Case.byLength) as H
    by (split; unfold Case.byLength; intros; lia).
  split; [exact H|].
  exact (batch_is_in_name_order
           (Case.serving Sample.pageA Sample.emptyPage 0) Sample.emptyWorld
           _ _ H eq_refl).
Defined.

(** ** A run and the next call *)

Lemma scrapeCarparks_fresh env w c :
  latest (collection w) = Some c -> isFresh env c = true ->
  scrapeCarparks env w = (Ok (data c), w).
Proof.
  intros Hl Hf. unfold scrapeCarparks, tryCatch, bind, findOneLatest.
  by rewrite Hl, Hf.
Qed.

(** After a run that succeeded and wrote under a time later than every
    stored document, a call made less than an hour after the write returns
    the same records and changes nothing: no request, no log record, no
    write. *)
Theorem stored_run_is_served_again (env env' : environment) (w w' : world)
    (cs : list carpark) :
  stale env w ->
  refresh env w = (Ok cs, w') ->
  (forall d, In d (collection w) -> docLastUpdated d < clockCreate env) ->
  clockCheck env' - clockCreate env < 3600000 ->
  scrapeCarparks env w = (Ok cs, w')
  /\ scrapeCarparks env' w' = (Ok cs, w').
Proof.
  intros Hs Hr Hnew Hage. split.
  - rewrite (scrapeCarparks_stale _ _ Hs). unfold tryCatch. by rewrite Hr.
  - pose proof Hr as Hr'.
    apply refresh_Ok in Hr' as (pages & w1 & parsed & Hp & _ & _ & _ & Hw).
    assert (collection w' = collection w ++ [written env cs]) as Hc.
    { rewrite Hw. simpl. f_equal.
      pose proof (keepsStore_promiseAll env _ _
                    (keepsStore_scrapeWithRetry env hk01Url)
                    (keepsStore_scrapeWithRetry env kilowattUrl) w) as Hk.
      by rewrite Hp in Hk. }
    apply (scrapeCarparks_fresh env' w' (written env cs)).
    + rewrite Hc. by apply latest_snoc.
    + unfold isFresh. simpl. by apply Z.ltb_lt.
Qed.

Lemma stored_run_is_served_again_witness :
  exists cs w',
    scrapeCarparks (Sample.serving Sample.pageA Sample.emptyPage 0)
                   Sample.emptyWorld = (Ok cs, w')
    /\ scrapeCarparks (Sample.serving Sample.emptyPage Sample.emptyPage 3000000)
                      w' = (Ok cs, w').
Proof.
  eexists _, _.
  refine (stored_run_is_served_again
            (Sample.serving Sample.pageA Sample.emptyPage 0)
            (Sample.serving Sample.emptyPage Sample.emptyPage 3000000)
            Sample.emptyWorld _ _ I eq_refl _ _).
  - intros d [].
  - simpl. lia.
Defined.

(** ** The trace of a fetch *)

Lemma lastAttempt_ge env url delays : forall num, (num <= lastAttempt env url num delays)%nat.
Proof.
  induction delays as [|t delays IH]; intros num; simpl; [lia|].
  destruct (httpGet env url num) as [d|e]; [lia|].
  destruct (isNotFound e); [lia|]. specialize (IH (S num)). lia.
Qed.

Lemma lastAttempt_le env url delays :
  forall num, (lastAttempt env url num delays <= num + length delays)%nat.
Proof.
  induction delays as [|t delays IH]; intros num; simpl; [lia|].
  destruct (httpGet env url num) as [d|e]; [lia|].
  destruct (isNotFound e); [lia|]. specialize (IH (S num)). lia.
Qed.

(** The world after a retry operation: the store is as before; the
    requests, the log records and the delays of the attempts are added. *)
Lemma retryFrom_world env url delays :
  forall num errors w,
    let k := lastAttempt env url num delays in
    snd (retryFrom env url num delays errors w)
    = mkWorld (collection w)
        (logs w ++ flat_map (attemptLogs env url true) (seq num (k - num))
                ++ attemptLogs env url false k)
        (requests w ++ attempts url num (S (k - num)))
        (sleeps w ++ List.map (pair url) (firstn (k - num) delays)).
Proof.
  induction delays as [|t delays IH]; intros num errors w; cbv zeta;
    rewrite retryFrom_step.
  - simpl. rewrite Nat.sub_diag. simpl. unfold attemptLogs, attempts.
    destruct (httpGet env url num) as [d|e]; simpl.
    + by rewrite !app_nil_r.
    + destruct (isNotFound e); simpl; by rewrite !app_nil_r.
  - simpl. unfold attemptLogs at 2.
    destruct (httpGet env url num) as [d|e] eqn:Hget; simpl.
    + rewrite Nat.sub_diag. simpl. unfold attempts. simpl.
      by rewrite Hget, !app_nil_r.
    + destruct (isNotFound e) eqn:Hnf; simpl.
      * rewrite Nat.sub_diag. simpl. unfold attempts. simpl.
        by rewrite Hget, !app_nil_r.
      * rewrite IH. simpl.
        pose proof (lastAttempt_ge env url delays (S num)) as Hge.
        set (k := lastAttempt env url (S num) delays) in *.
        replace (k - num)%nat with (S (k - S num)) by lia.
        simpl. unfold attemptLogs at 3. rewrite Hget. unfold attempts. simpl.
        unfold failureLog, retryLog.
        f_equal; rewrite <- !app_assoc; reflexivity.
Qed.

Lemma timeouts_length rnd : length (timeouts scrapeOptions rnd) = 3%nat.
Proof.
  unfold timeouts. by rewrite sortAscending_length, length_map, length_seq.
Qed.

Lemma lastAttempt_first env url rnd :
  (1 <= lastAttempt env url 1 (timeouts scrapeOptions rnd) <= 4)%nat.
Proof.
  pose proof (lastAttempt_ge env url (timeouts scrapeOptions rnd) 1).
  pose proof (lastAttempt_le env url (timeouts scrapeOptions rnd) 1) as Hle.
  rewrite timeouts_length in Hle. lia.
Qed.

Lemma scrapeWithRetry_requests (env : environment) (url : string) (w : world) :
  requests (snd (scrapeWithRetry env url w))
  = requests w
    ++ attempts url 1
         (lastAttempt env url 1 (timeouts scrapeOptions (random env url))).
Proof.
  unfold scrapeWithRetry. rewrite retryFrom_world. simpl.
  pose proof (lastAttempt_first env url (random env url)).
  set (k := lastAttempt _ _ _ _) in *. by replace (S (k - 1)) with k by lia.
Qed.

(** A fetch logs every attempt that fails as an error with the message of
    the failure, and every retry as a warning that carries the number of
    the attempt that failed; an attempt that gets a response logs nothing.
    The records come in the order of the attempts, of which there are at
    most four. *)
Theorem fetch_log (env : environment) (url : string) (w : world) :
  let k := lastAttempt env url 1 (timeouts scrapeOptions (random env url)) in
  (1 <= k <= 4)%nat
  /\ requests (snd (scrapeWithRetry env url w)) = requests w ++ attempts url 1 k
  /\ logs (snd (scrapeWithRetry env url w))
     = logs w ++ flat_map (attemptLogs env url true) (seq 1 (k - 1))
              ++ attemptLogs env url false k.
Proof.
  cbv zeta. split; [apply lastAttempt_first|].
  split; [apply scrapeWithRetry_requests|].
  unfold scrapeWithRetry. by rewrite retryFrom_world.
Qed.

Lemma promiseAll_world env (a b : M document) w :
  snd (promiseAll env a b w) = snd (b (snd (a w))).
Proof.
  unfold promiseAll. destruct (a w) as [ra w1]. simpl.
  destruct (b w1) as [rb w2]. by destruct ra, rb.
Qed.

Lemma refresh_requests env w :
  requests (snd (refresh env w))
  = requests (snd (promiseAll env (scrapeWithRetry env hk01Url)
                              (scrapeWithRetry env kilowattUrl) w)).
Proof.
  unfold refresh, bind at 1.
  destruct (promiseAll _ _ _ w) as [[pages|e1] w1]; [|done].
  unfold bind at 1.
  pose proof (extract_world (fst pages) w1) as Hw.
  destruct (extract (fst pages) w1) as [[parsed|e2] w2]; simpl in Hw; subst w2;
    [|done].
  cbv zeta. by destruct (length _ =? 0)%nat.
Qed.

Lemma fallback_requests env e w : requests (snd (fallback env e w)) = requests w.
Proof.
  unfold fallback, bind, logger, findOneLatest. simpl.
  by destruct (latest (collection w)).
Qed.

Lemma attempts_first url k : (1 <= k)%nat -> In (url, 1%nat) (attempts url 1 k).
Proof.
  intros Hk. unfold attempts. apply in_map_iff. exists 1%nat.
  split; [done|]. apply in_seq. lia.
Qed.

Lemma attempts_bounds url k :
  (k <= 4)%nat ->
  Forall (fun r : string * nat => fst r = url /\ (1 <= snd r <= 4)%nat)
         (attempts url 1 k).
Proof.
  intros Hk. apply List.Forall_forall. intros r Hr. unfold attempts in Hr.
  apply in_map_iff in Hr as (i & <- & Hi). apply in_seq in Hi. simpl.
  split; [done|lia].
Qed.

(** When the cache check does not return, the first attempt is sent to
    each of the two addresses, whatever happens to the other fetch; the
    call sends requests to these two addresses only, eight at most, and
    never more than a fourth attempt.  Nothing is said of the order in
    which the requests to the two addresses are sent. *)
Theorem both_pages_are_requested (env : environment) (w : world) :
  stale env w ->
  exists sent,
    requests (snd (scrapeCarparks env w)) = requests w ++ sent
    /\ In (hk01Url, 1%nat) sent
    /\ In (kilowattUrl, 1%nat) sent
    /\ (length sent <= 8)%nat
    /\ Forall (fun r : string * nat =>
                 (fst r = hk01Url \/ fst r = kilowattUrl)
                 /\ (1 <= snd r <= 4)%nat) sent.
Proof.
  intros Hs.
  pose proof (scrapeWithRetry_requests env hk01Url w) as Hr1.
  pose proof (scrapeWithRetry_requests env kilowattUrl
                (snd (scrapeWithRetry env hk01Url w))) as Hr2.
  pose proof (lastAttempt_first env hk01Url (random env hk01Url)) as Hk1.
  pose proof (lastAttempt_first env kilowattUrl (random env kilowattUrl)) as Hk2.
  set (k1 := lastAttempt env hk01Url 1 _) in *.
  set (k2 := lastAttempt env kilowattUrl 1 _) in *.
  exists (attempts hk01Url 1 k1 ++ attempts kilowattUrl 1 k2).
  split; [|split; [|split; [|split]]].
  - rewrite (scrapeCarparks_stale _ _ Hs). unfold tryCatch.
    pose proof (refresh_requests env w) as Hq.
    rewrite promiseAll_world, Hr2, Hr1, <- app_assoc in Hq.
    destruct (refresh env w) as [[cs|e] w']; simpl in Hq; [done|].
    by rewrite fallback_requests.
  - apply in_or_app. left. apply attempts_first. lia.
  - apply in_or_app. right. apply attempts_first. lia.
  - unfold attempts. rewrite length_app, !length_map, !length_seq. lia.
  - apply Forall_app. split;
      (eapply List.Forall_impl; [|apply attempts_bounds; lia]);
      simpl; intros r [-> ?]; auto.
Qed.

Lemma both_pages_are_requested_witness :
  exists sent,
    requests (snd (scrapeCarparks (Sample.down Sample.unavailable)
                                  Sample.emptyWorld)) = [] ++ sent
    /\ In (hk01Url, 1%nat) sent
    /\ In (kilowattUrl, 1%nat) sent
    /\ (length sent <= 8)%nat
    /\ Forall (fun r : string * nat =>
                 (fst r = hk01Url \/ fst r = kilowattUrl)
                 /\ (1 <= snd r <= 4)%nat) sent.
Proof.
  exact (both_pages_are_requested (Sample.down Sample.unavailable)
           Sample.emptyWorld I).
Defined.

(** ** The back-off of a fetch *)

Lemma insertAscending_sorted x l :
  StronglySorted Z.le l -> StronglySorted Z.le (insertAscending x l).
Proof.
  induction 1 as [|y l Hl IH Hy]; simpl; [repeat constructor|].
  destruct (Z.leb_spec x y) as [Hxy|Hxy].
  - constructor; [by constructor|]. constructor; [done|].
    eapply List.Forall_impl; [|exact Hy]. simpl. intros; lia.
  - constructor; [done|]. apply insertAscending_Forall; [lia|done].
Qed.

Lemma sortAscending_sorted l : StronglySorted Z.le (sortAscending l).
Proof.
  induction l as [|x l IH]; simpl; [constructor|]. by apply insertAscending_sorted.
Qed.

Lemma insertAscending_sum x l : sum (insertAscending x l) = x + sum l.
Proof.
  induction l as [|y l IH]; simpl; [done|].
  destruct (x <=? y); simpl; [done|]. rewrite IH. lia.
Qed.

Lemma sortAscending_sum l : sum (sortAscending l) = sum l.
Proof.
  induction l as [|x l IH]; simpl; [done|]. by rewrite insertAscending_sum, IH.
Qed.

Lemma firstn_sorted n (l : list Z) :
  StronglySorted Z.le l -> StronglySorted Z.le (firstn n l).
Proof.
  intros H. revert n. induction H as [|y l Hl IH Hy]; intros [|n]; simpl;
    try constructor; [apply IH|].
  apply List.Forall_forall. intros z Hz.
  apply (proj1 (List.Forall_forall _ _) Hy).
  rewrite <- (firstn_skipn n l). apply in_or_app. by left.
Qed.

Lemma firstn_sum n (l : list Z) :
  Forall (fun d => 0 <= d) l -> sum (firstn n l) <= sum l.
Proof.
  intros H. revert n. induction H as [|y l Hy Hl IH]; intros [|n]; simpl;
    try lia.
  - assert (0 <= sum l); [|lia].
    clear IH. induction Hl; simpl; lia.
  - specialize (IH n). lia.
Qed.

Lemma round_le (z : Z) (x : Q) : (x < inject_Z z)%Q -> round x <= z.
Proof.
  intros H. unfold round.
  pose proof (Qfloor_le (x + (1 # 2))) as Hf.
  assert (inject_Z (Qfloor (x + (1 # 2))) < inject_Z (z + 1))%Q as Hlt.
  { rewrite inject_Z_plus.
    apply Qle_lt_trans with (x + (1 # 2))%Q; [done|].
    apply Qlt_le_trans with (inject_Z z + (1 # 2))%Q.
    - by apply Qplus_lt_l.
    - by apply Qplus_le_r. }
  rewrite <- Zlt_Qlt in Hlt. lia.
Qed.

(** The first delay is at most twice the minimum. *)
Lemma createTimeout_first rnd :
  (rnd < 1)%Q -> createTimeout 0 scrapeOptions rnd <= 4000.
Proof.
  intros Hr. unfold createTimeout, scrapeOptions; simpl.
  etransitivity; [apply Z.le_min_l|].
  apply round_le.
  change (inject_Z (Z.max 2000 1)) with 2000%Q.
  change (inject_Z (2 ^ Z.of_nat 0)) with 1%Q.
  change (inject_Z 4000) with 4000%Q. lra.
Qed.

Lemma timeouts_sum env url :
  randomInRange env url -> sum (timeouts scrapeOptions (random env url)) <= 14000.
Proof.
  intros Hr. unfold timeouts. rewrite sortAscending_sum. simpl.
  pose proof (createTimeout_first _ (proj2 (Hr 0%nat))).
  pose proof (createTimeout_bounds 1 _ (proj1 (Hr 1%nat))).
  pose proof (createTimeout_bounds 2 _ (proj1 (Hr 2%nat))).
  lia.
Qed.

(** The delays that a fetch waits between its attempts never decrease, and
    they add up to 14,000 ms at most. *)
Theorem backoff_is_bounded (env : environment) (url : string) (w : world) :
  randomInRange env url ->
  exists delays,
    sleeps (snd (scrapeWithRetry env url w))
    = sleeps w ++ List.map (pair url) delays
    /\ StronglySorted Z.le delays
    /\ sum delays <= 14000.
Proof.
  intros Hr. unfold scrapeWithRetry. rewrite retryFrom_world. simpl.
  eexists. split; [reflexivity|]. split.
  - apply firstn_sorted, sortAscending_sorted.
  - etransitivity; [|by apply timeouts_sum].
    apply firstn_sum.
    eapply List.Forall_impl; [|exact (proj2 (timeouts_bounds env url Hr))].
    simpl. intros; lia.
Qed.

Lemma backoff_is_bounded_witness :
  randomInRange (Sample.down Sample.unavailable) hk01Url
  /\ exists delays,
       sleeps (snd (scrapeWithRetry (Sample.down Sample.unavailable) hk01Url
                                    Sample.emptyWorld))
       = List.map (pair hk01Url) delays
       /\ StronglySorted Z.le delays
       /\ sum delays <= 14000.
Proof.
  assert (randomInRange (Sample.down Sample.unavailable) hk01Url) as H
    by (intros i; split; [apply Qle_refl | reflexivity]).
  split; [exact H|].
  exact (backoff_is_bounded (Sample.down Sample.unavailable) hk01Url
           Sample.emptyWorld H).
Defined.

(** ** The error of an exhausted fetch *)

Lemma countMessage_same msg errors :
  Forall (fun e => errMessage e = msg) errors ->
  countMessage msg errors = length errors.
Proof.
  unfold countMessage. induction 1 as [|e errors He Hes IH]; simpl; [done|].
  rewrite He, String.eqb_refl. simpl. by rewrite IH.
Qed.

Lemma mainErrorFrom_same msg errors :
  Forall (fun e => errMessage e = msg) errors ->
  forall seen best bestCount,
    Forall (fun e => errMessage e = msg) seen ->
    (bestCount <= length seen)%nat ->
    mainErrorFrom seen best bestCount errors
    = match list.last errors with
      | Some e => Some e
      | None => best
      end.
Proof.
  induction 1 as [|e errors He Hes IH]; intros seen best bestCount Hseen Hc;
    simpl; [done|].
  rewrite He, (countMessage_same _ _ Hseen).
  destruct (Nat.leb_spec bestCount (S (length seen))) as [_|?]; [|lia].
  rewrite IH.
  - destruct errors as [|x errors']; [reflexivity|].
    rewrite last_cons_cons.
    destruct (list.last (x :: errors')) eqn:E; [done|].
    by apply last_None in E.
  - apply Forall_app. split; [done|]. by repeat constructor.
  - rewrite length_app. simpl. lia.
Qed.

Lemma mainError_same msg errors e :
  Forall (fun x => errMessage x = msg) (errors ++ [e]) -> mainError errors e = e.
Proof.
  intros H. unfold mainError.
  rewrite (mainErrorFrom_same msg _ H [] None 0%nat); [|constructor|simpl; lia].
  by rewrite last_snoc.
Qed.

(** When the four attempts of a fetch all fail with the same message, and
    none with status 404, the error thrown to the caller is that of the
    fourth attempt. *)
Theorem repeated_failure_throws_the_last (env : environment) (url : string)
    (w : world) (msg : string) :
  (forall i, (1 <= i <= 4)%nat ->
     exists e, httpGet env url i = Rejects e
               /\ isNotFound e = false /\ errMessage e = msg) ->
  exists e, httpGet env url 4 = Rejects e
            /\ fst (scrapeWithRetry env url w) = Throw e.
Proof.
  intros H.
  destruct (H 1%nat ltac:(lia)) as (e1 & H1 & N1 & M1).
  destruct (H 2%nat ltac:(lia)) as (e2 & H2 & N2 & M2).
  destruct (H 3%nat ltac:(lia)) as (e3 & H3 & N3 & M3).
  destruct (H 4%nat ltac:(lia)) as (e4 & H4 & N4 & M4).
  exists e4. split; [done|].
  unfold scrapeWithRetry.
  pose proof (timeouts_length (random env url)) as Hlen.
  destruct (timeouts scrapeOptions (random env url)) as [|t1 [|t2 [|t3 [|t4 ts]]]];
    try discriminate.
  rewrite retryFrom_step, H1. cbv zeta. rewrite N1.
  rewrite retryFrom_step, H2. cbv zeta. rewrite N2.
  rewrite retryFrom_step, H3. cbv zeta. rewrite N3.
  rewrite retryFrom_step, H4. cbv zeta. rewrite N4.
  simpl. f_equal. apply (mainError_same msg).
  by repeat constructor.
Qed.

Lemma repeated_failure_throws_the_last_witness :
  fst (scrapeWithRetry (Sample.down Sample.unavailable) hk01Url Sample.emptyWorld)
  = Throw Sample.unavailable.
Proof.
  destruct (repeated_failure_throws_the_last
              (Sample.down Sample.unavailable) hk01Url Sample.emptyWorld
              (errMessage Sample.unavailable)) as (e & He & Hr).
  - intros i _. exists Sample.unavailable. by repeat split.
  - injection He as <-. exact Hr.
Defined.

(** ** The extraction loops and the last filter *)

Lemma keptGarages_garageLogs_length els :
  (length (keptGarages els) + length (garageLogs els) = length els)%nat.
Proof.
  induction els as [|[f|e html] els IH]; simpl; [done| |lia].
  destruct (JS.truthy _); simpl; lia.
Qed.

(** The garage loop never throws and touches nothing but the log.  Each
    [.carpark-item] is pushed, when it extracts to a valid car park, or
    gives one log record, so that the car parks pushed and the records
    logged are as many as the elements; every car park pushed is valid and
    is the object built from one of the elements. *)
Theorem every_garage_is_pushed_or_logged
    (els : list (extraction garageFields)) (cs : list carpark) (w : world) :
  exists kept ls,
    each garageBody els cs w = (Ok (cs ++ kept), appendLogs ls w)
    /\ (length kept + length ls = length els)%nat
    /\ Forall valid kept
    /\ Forall (fun c => exists f, In (Extracted f) els /\ c = garageCarpark f) kept.
Proof.
  exists (keptGarages els), (garageLogs els).
  split; [apply each_garageBody|]. split; [apply keptGarages_garageLogs_length|].
  split; apply List.Forall_forall; intros c Hc;
    apply keptGarages_In in Hc as (f & ? & ? & ?); eauto.
Qed.

Lemma validateCarpark_mergeCharger m c :
  validateCarpark (mergeCharger m c) = validateCarpark c.
Proof. unfold mergeCharger. by destruct (m !! name c). Qed.

Lemma In_validated_merged env m cs c :
  In c cs -> valid c -> In (mergeCharger m c) (validated env (List.map (mergeCharger m) cs)).
Proof.
  intros Hc Hv. apply validated_In. split; [by apply in_map|].
  by rewrite validateCarpark_mergeCharger.
Qed.

(** The merge does not change what [validateCarpark] returns.  So the last
    filter keeps every garage that the first loop pushed, and can drop
    street zones only: those that are not valid. *)
Theorem last_filter_drops_zones_only (env : environment) (d : document)
    (w w' : world) (carparks : list carpark)
    (chargerMap : gmap string chargerInfo) (c : carpark) :
  extract d w = (Ok (carparks, chargerMap), w') ->
  In c carparks ->
  validateCarpark (mergeCharger chargerMap c) = validateCarpark c
  /\ (valid c ->
      In (mergeCharger chargerMap c)
         (validated env (List.map (mergeCharger chargerMap) carparks)))
  /\ (~ valid c -> isStreetParking c = Some true).
Proof.
  intros Hex Hc. split; [apply validateCarpark_mergeCharger|]. split.
  - by apply In_validated_merged.
  - intros Hn. apply extract_Ok in Hex as (zs & cs & _ & _ & -> & _ & _).
    apply in_app_or in Hc as [Hc|Hc].
    + apply keptGarages_In in Hc as (f & _ & _ & Hv). by destruct Hn.
    + by apply in_map_iff in Hc as (f & <- & _).
Qed.

Lemma last_filter_drops_zones_only_witness :
  In Sample.mergedX
     (validated (Sample.serving Sample.pageA Sample.emptyPage 0)
        (List.map (mergeCharger (chargerTable [Sample.chargerX] ∅))
                  [garageCarpark Sample.garageX; zoneCarpark Sample.zoneY])).
Proof.
  refine (proj1 (proj2 (last_filter_drops_zones_only
            (Sample.serving Sample.pageA Sample.emptyPage 0)
            Sample.pageA Sample.emptyWorld _ _ _
            (garageCarpark Sample.garageX) eq_refl (or_introl eq_refl))) _).
  vm_compute. reflexivity.
Defined.

(** Among the [.charger-location] elements that the loop reads, the entry
    of a name is that of the last element with this trimmed name: earlier
    ones are overwritten, and the loop logs nothing and changes nothing
    else. *)
Theorem last_charger_location_wins (fs1 fs2 : list chargerFields)
    (f : chargerFields) (m : gmap string chargerInfo) (w : world) :
  (forall g, In g fs2 ->
     JS.trim (locationNameText g) <> JS.trim (locationNameText f)) ->
  exists m',
    each chargerBody (List.map Extracted (fs1 ++ f :: fs2)) m w = (Ok m', w)
    /\ m' !! JS.trim (locationNameText f) = Some (chargerEntry f).
Proof.
  intros H. eexists. split; [apply each_chargerBody_extracted|].
  by apply chargerTable_last_wins.
Qed.

Lemma last_charger_location_wins_witness :
  exists m',
    each chargerBody
      (List.map Extracted ([Sample.chargerXFirst] ++ Sample.chargerX :: []))
      ∅ Sample.emptyWorld = (Ok m', Sample.emptyWorld)
    /\ m' !! JS.trim (locationNameText Sample.chargerX)
       = Some (chargerEntry Sample.chargerX).
Proof.
  apply (last_charger_location_wins [Sample.chargerXFirst] [] Sample.chargerX).
  intros g [].
Defined.

(** ** The second page *)

Lemma retryFrom_mapped (g : document -> document) env env' url delays :
  (forall n, httpGet env' url n = mapSecondPage g (httpGet env url n)) ->
  forall num errors w,
    retryFrom env' url num delays errors w
    = (match fst (retryFrom env url num delays errors w) with
       | Ok d => Ok (g d)
       | Throw e => Throw e
       end,
       snd (retryFrom env url num delays errors w)).
Proof.
  intros Hget. induction delays as [|t delays IH]; intros num errors w;
    rewrite !retryFrom_step, Hget;
    destruct (httpGet env url num) as [d|e]; simpl; try done;
    destruct (isNotFound e); simpl; try done; apply IH.
Qed.

Lemma retryFrom_same env env' url delays :
  (forall n, httpGet env' url n = httpGet env url n) ->
  forall num errors w,
    retryFrom env' url num delays errors w = retryFrom env url num delays errors w.
Proof.
  intros Hget. induction delays as [|t delays IH]; intros num errors w;
    rewrite !retryFrom_step, Hget;
    destruct (httpGet env url num) as [d|e]; simpl; try done;
    destruct (isNotFound e); simpl; try done; apply IH.
Qed.

Lemma promiseAll_withSecondPage f env w :
  promiseAll (withSecondPage f env)
             (scrapeWithRetry (withSecondPage f env) hk01Url)
             (scrapeWithRetry (withSecondPage f env) kilowattUrl) w
  = (match fst (promiseAll env (scrapeWithRetry env hk01Url)
                           (scrapeWithRetry env kilowattUrl) w) with
     | Ok pages => Ok (fst pages, f (snd pages))
     | Throw e => Throw e
     end,
     snd (promiseAll env (scrapeWithRetry env hk01Url)
                     (scrapeWithRetry env kilowattUrl) w)).
Proof.
  unfold promiseAll, scrapeWithRetry.
  change (random (withSecondPage f env)) with (random env).
  rewrite (retryFrom_same env (withSecondPage f env) hk01Url) by done.
  destruct (retryFrom env hk01Url _ _ _ w) as [ra w1].
  rewrite (retryFrom_mapped f env (withSecondPage f env) kilowattUrl) by done.
  destruct (retryFrom env kilowattUrl _ _ _ w1) as [rb w2]. simpl.
  destruct ra as [x|e1], rb as [y|e2]; simpl; reflexivity.
Qed.

Lemma refresh_withSecondPage f env w :
  refresh (withSecondPage f env) w = refresh env w.
Proof.
  unfold refresh, bind. rewrite promiseAll_withSecondPage.
  destruct (promiseAll env _ _ w) as [[pages|e] w1]; simpl; reflexivity.
Qed.

(** The page received from the second address is never read: when the
    responses of that address carry other pages, [scrapeCarparks] returns
    the same result and leaves the same world. *)
Theorem second_page_is_not_read (f : document -> document)
    (env : environment) (w : world) :
  scrapeCarparks (withSecondPage f env) w = scrapeCarparks env w.
Proof.
  unfold scrapeCarparks, tryCatch, bind, findOneLatest.
  change (fallback (withSecondPage f env)) with (fallback env).
  destruct (latest (collection w)) as [c|];
    [change (isFresh (withSecondPage f env) c) with (isFresh env c);
     destruct (isFresh env c); [done|]|];
    by rewrite refresh_withSecondPage.
Qed.

(** ** The log of the fallback *)

Lemma fallback_world env e w :
  snd (fallback env e w)
  = appendLogs (fallbackLogs env e (latest (collection w))) w.
Proof.
  unfold fallback, bind, logger, findOneLatest, fallbackLogs. simpl.
  destruct (latest (collection w)); simpl; unfold appendLogs, pushLog; simpl;
    by rewrite <- ?app_assoc.
Qed.

(** When the run fails, the catch logs the error with its message; when
    the store is not empty, a record at info level follows, with the age at
    that moment of a most recent stored document, the one that is served;
    on the empty store no record at info level is logged.  Other records
    may come before, between and after these. *)
Theorem fallback_is_logged (env : environment) (w w1 : world) (e : error) :
  stale env w ->
  refresh env w = (Throw e, w1) ->
  exists before after,
    logs (snd (scrapeCarparks env w))
    = before ++ mkLog LError "數據抓取過程錯誤" (MetaError (errMessage e)) :: after
    /\ (collection w = [] -> Forall (fun r => logLevel r <> LInfo) after)
    /\ (collection w <> [] ->
        exists c,
          mostRecent (collection w) c
          /\ fst (scrapeCarparks env w) = Ok (data c)
          /\ In (mkLog LInfo "使用緩存數據"
                       (MetaCacheAge (clockFallback env - docLastUpdated c)))
                after).
Proof.
  intros Hs Hr. rewrite (scrapeCarparks_stale _ _ Hs). unfold tryCatch.
  rewrite Hr. pose proof (refresh_throw_keeps _ _ _ _ Hr) as Hk.
  rewrite fallback_world, Hk. unfold fallbackLogs. simpl.
  eexists (logs w1), _. split; [reflexivity|]. split.
  - intros Hnil. rewrite Hnil. simpl. constructor.
  - intros Hne. destruct (latest_nonempty _ Hne) as [c Hc].
    exists c. split; [by apply latest_mostRecent|]. rewrite Hc.
    split; [|by left].
    rewrite <- Hk in Hc. by destruct (fallback_some env e w1 c Hc).
Qed.

Lemma fallback_is_logged_witness :
  exists before after,
    logs (snd (scrapeCarparks
                 (Sample.serving Sample.emptyPage Sample.emptyPage 7200900)
                 Sample.worldThree))
    = before ++ mkLog LError "數據抓取過程錯誤"
                      (MetaError (errMessage emptyBatch)) :: after
    /\ In (mkLog LInfo "使用緩存數據" (MetaCacheAge 7200002)) after.
Proof.
  destruct (fallback_is_logged
              (Sample.serving Sample.emptyPage Sample.emptyPage 7200900)
              Sample.worldThree _ emptyBatch eq_refl eq_refl)
    as (before & after & Hl & _ & Hin).
  exists before, after. split; [exact Hl|].
  destruct (Hin ltac:(discriminate)) as (c & Hc & _ & Hi).
  rewrite (mostRecent_same_time _ _ _ Hc
             (latest_mostRecent _ _ (latest_newest _ _ storedNewest_is_newest)))
    in Hi.
  exact Hi.
Defined.

(** ** The handler of [POST /api/carparks] *)

(** A request is refused with status 400 exactly when [lat] or [lng] is
    falsy (missing, [null], [false], 0, NaN or the empty string) or does
    not convert to a number; a request that is refused runs nothing: the
    world is as before. *)
Theorem refused_request_runs_nothing (env : environment) (h : host)
    (lat lng : json) (w : world) :
  (status (fst (postCarparks env h lat lng w)) = 400
   <-> jsonTruthy lat = false \/ jsonTruthy lng = false
       \/ JS.isNaN (toNumber h lat) = true \/ JS.isNaN (toNumber h lng) = true)
  /\ (status (fst (postCarparks env h lat lng w)) = 400 ->
      postCarparks env h lat lng w
      = ({| status := 400; body := ErrorBody "無效的經緯度" None |}, w)).
Proof.
  unfold postCarparks.
  assert (refused h lat lng = true
          <-> jsonTruthy lat = false \/ jsonTruthy lng = false
              \/ JS.isNaN (toNumber h lat) = true
              \/ JS.isNaN (toNumber h lng) = true) as Href.
  { unfold refused. rewrite !orb_true_iff, !negb_true_iff. tauto. }
  destruct (refused h lat lng) eqn:E.
  - split; [|done]. simpl. split; [intros _; by apply Href|done].
  - destruct (scrapeCarparks env w) as [[cs|e] w']; simpl;
      (split; [|discriminate]);
      (split; [discriminate|intros Hd; apply Href in Hd; discriminate]).
Qed.



(** ** The page script *)

Section Distinct.
Context {A : Type} `{EqDecision A}.

Lemma distinct_from (l : list A) :
  forall seen,
    NoDup seen ->
    let r := fold_left
               (fun seen x => if decide (x ∈ seen) then seen else seen ++ [x])
               l seen in
    NoDup r
    /\ (forall x, x ∈ r <-> x ∈ seen \/ x ∈ l)
    /\ (length r <= length seen + length l)%nat.
Proof.
  induction l as [|y l IH]; intros seen Hseen; cbv zeta; simpl.
  - split; [done|]. split; [|lia].
    intros x. rewrite elem_of_nil. tauto.
  - destruct (decide (y ∈ seen)) as [Hy|Hy].
    + destruct (IH seen Hseen) as (H1 & H2 & H3).
      split; [done|]. split; [|lia].
      intros x. rewrite H2, elem_of_cons. split; [tauto|].
      intros [?|[->|?]]; tauto.
    + assert (NoDup (seen ++ [y])) as Hnd.
      { apply NoDup_app. repeat split; [done| |apply NoDup_singleton].
        intros x Hx ->%list_elem_of_singleton. done. }
      destruct (IH (seen ++ [y]) Hnd) as (H1 & H2 & H3).
      split; [done|]. split.
      * intros x.
        rewrite H2, elem_of_app, list_elem_of_singleton, elem_of_cons. tauto.
      * rewrite length_app in H3. simpl in H3. lia.
Qed.

Lemma distinct_spec (l : list A) :
  NoDup (distinct l)
  /\ (forall x, x ∈ distinct l <-> x ∈ l)
  /\ (length (distinct l) <= length l)%nat.
Proof.
  destruct (distinct_from l [] (NoDup_nil_2)) as (H1 & H2 & H3).
  split; [done|]. split; [|done].
  intros x. rewrite H2, elem_of_nil. tauto.
Qed.
End Distinct.

Lemma or_str_nonempty a b : b <> "" -> JS.or_str a b <> "".
Proof.
  intros Hb. unfold JS.or_str. destruct (JS.truthy (JS.VStr a)) eqn:E; [|done].
  by apply truthy_str.
Qed.

(** The page script lists each operator and each connector type of a
    location once, whatever the number of chargers that carry it: the two
    lists have no duplicate, hold exactly the names of the chargers, and
    are not longer than the count of chargers; the cell that shows a list is
    never empty. *)
Theorem page_lists_each_name_once (chargers : option (list chargerJson)) :
  let c := chargingOf chargers in
  let l := match chargers with Some l => l | None => [] end in
  NoDup (operators c)
  /\ NoDup (connectorTypes c)
  /\ (forall x, x ∈ operators c <-> exists ch, ch ∈ l /\ operatorName ch = x)
  /\ (forall x, x ∈ connectorTypes c <-> exists ch, ch ∈ l /\ connectorType ch = x)
  /\ Z.of_nat (length (operators c)) <= chargingCount c
  /\ Z.of_nat (length (connectorTypes c)) <= chargingCount c
  /\ namesCell (operators c) <> ""
  /\ namesCell (connectorTypes c) <> "".
Proof.
  cbv zeta. unfold chargingOf; simpl.
  set (l := match chargers with Some l => l | None => [] end).
  assert (match chargers with Some l => List.map operatorName l | None => [] end
          = List.map operatorName l) as -> by (by destruct chargers).
  assert (match chargers with Some l => List.map connectorType l | None => [] end
          = List.map connectorType l) as -> by (by destruct chargers).
  assert (match chargers with Some l => Z.of_nat (length l) | None => 0 end
          = Z.of_nat (length l)) as -> by (by destruct chargers).
  destruct (distinct_spec (List.map operatorName l)) as (N1 & E1 & L1).
  destruct (distinct_spec (List.map connectorType l)) as (N2 & E2 & L2).
  rewrite length_map in L1, L2.
  repeat split; try done; try lia; try (by apply or_str_nonempty).
  - intros Hx. apply E1, list_elem_of_fmap in Hx as (ch & -> & ?). eauto.
  - intros (ch & ? & <-). apply E1, list_elem_of_fmap. eauto.
  - intros Hx. apply E2, list_elem_of_fmap in Hx as (ch & -> & ?). eauto.
  - intros (ch & ? & <-). apply E2, list_elem_of_fmap. eauto.
Qed.

(** ** Street zones and the log of the extraction *)

Lemma zone_name_nonempty f : name (zoneCarpark f) <> "".
Proof. simpl. discriminate. Qed.

(** A street zone is valid exactly when its two coordinates are: its name
    starts with the marker and is never empty, so a zone with no name of
    its own is kept under the marker alone. *)
Theorem zone_is_valid_by_its_coordinates (f : zoneFields) :
  valid (zoneCarpark f)
  <-> (within (-90) 90 (zoneLat f) /\ nonZero (zoneLat f))
      /\ (within (-180) 180 (zoneLng f) /\ nonZero (zoneLng f)).
Proof.
  unfold valid. rewrite validateCarpark_checks, truthy_str, !coordinateOk_iff.
  pose proof (zone_name_nonempty f). simpl latitude. simpl longitude. tauto.
Qed.

(** The extraction changes nothing but the log, and it logs for garages
    only, one record for each garage that is not pushed: a street zone or
    a charger location never gives a record, whether the extraction ends
    or throws. *)
Theorem extraction_logs_garages_only (d : document) (w : world) :
  exists ls,
    snd (extract d w) = appendLogs ls w
    /\ (length ls <= length (carparkItems d))%nat
    /\ Forall (fun r =>
                 (logLevel r = LWarn /\ logMessage r = "無效的停車場數據")
                 \/ (logLevel r = LError /\ logMessage r = "解析停車場數據錯誤"))
              ls.
Proof.
  exists (garageLogs (carparkItems d)). split; [apply extract_world|].
  split.
  - pose proof (keptGarages_garageLogs_length (carparkItems d)). lia.
  - induction (carparkItems d) as [|[f|e html] els IH]; simpl.
    + constructor.
    + destruct (JS.truthy _); [done|]. constructor; [by left|done].
    + constructor; [by right|done].
Qed.
